(** * The wave effect of keyledsd (src/keyledsd/src/plugins/wave.cxx)

    A shallow embedding of the [WavePlugin] class: its constructor, the
    gradient table builder [generateColorTable], the geometry-to-phase
    mapper [computePhases] and the per-frame sampler [render], followed
    by the properties of these functions.

    Conventions.
    - [unsigned], [int] and [unsigned long] values are integers of [Z];
      every operation of the source that can leave the range of its type
      is followed by the reduction [u32], [i32] or [u64] (LP64: the
      daemon is a Linux program).  Signed overflow, undefined in C++, is
      modelled by the two's complement wrap-around of the hardware.
    - [float] is IEEE binary32, through the Standard Library's
      [SpecFloat] at precision 24 and exponent bound 128; every operation
      rounds on its own, to nearest even.
    - Container indices and sizes ([std::size_t]) are [nat]; no container
      of this file can hold the 2^54 elements a [size_t] overflow needs.
    - Code that throws, asserts or has undefined behaviour returns a
      [fault] in the [result] monad. *)

From Stdlib Require Import ZArith Lia SpecFloat Ascii String.
From stdpp Require Import base list strings.

Local Open Scope Z_scope.

(** ** Machine integers *)

Definition u32 (z : Z) : Z := z mod 2 ^ 32.
Definition u64 (z : Z) : Z := z mod 2 ^ 64.
Definition i32 (z : Z) : Z := (z + 2 ^ 31) mod 2 ^ 32 - 2 ^ 31.

(** [static constexpr int accuracy = 1024;] *)
Definition accuracy : Z := 1024.

(** ** Faults and the result monad *)

Inductive fault : Type :=
| InvalidArgument      (* std::invalid_argument thrown by std::stoul *)
| OutOfRange           (* std::out_of_range thrown by std::stoul *)
| ColorParseError      (* RGBAColor::parse rejects a gradient stop *)
| AssertionFailed      (* an assert of render does not hold *)
| DivisionByZero       (* integer division by zero *)
| FloatConversion      (* float to integer conversion out of range *)
| ColorTableIndex      (* m_colors read outside the table *)
| PhaseIndex           (* m_phases read outside the table *)
| BufferIndex          (* m_buffer accessed outside the buffer *)
| NegativeCount.       (* vector::insert with a negative count *)

Definition result (A : Type) : Type := fault + A.

Definition ok {A} (a : A) : result A := inr a.
Definition throw {A} (f : fault) : result A := inl f.

Definition rbind {A B} (m : result A) (k : A -> result B) : result B :=
  match m with
  | inl f => inl f
  | inr a => k a
  end.

Notation "'let*' x ':=' m 'in' k" := (rbind m (fun x => k))
  (at level 10, x pattern, m at level 200, k at level 200).

(** [for (i = lo; i < lo + n; ++i) body], threading the loop state. *)
Fixpoint for_loop {S} (n : nat) (lo : nat) (body : nat -> S -> result S)
    (s : S) : result S :=
  match n with
  | O => ok s
  | Datatypes.S n' => let* s' := body lo s in for_loop n' (Datatypes.S lo) body s'
  end.

(** ** binary32 arithmetic *)

Module F32.
Definition prec : Z := 24.
Definition emax : Z := 128.

Definition add : spec_float -> spec_float -> spec_float := SFadd prec emax.
Definition sub : spec_float -> spec_float -> spec_float := SFsub prec emax.
Definition mul : spec_float -> spec_float -> spec_float := SFmul prec emax.
Definition div : spec_float -> spec_float -> spec_float := SFdiv prec emax.

(** Conversion of an integer, rounding to nearest even. *)
Definition of_Z (z : Z) : spec_float := binary_normalize prec emax z 0 false.

(** Conversion to an integer type truncates toward zero; it is
    undefined for NaN and the infinities. *)
Definition trunc (f : spec_float) : option Z :=
  match f with
  | S754_zero _ => Some 0
  | S754_finite s m e =>
      let a := if 0 <=? e then Z.pos m * 2 ^ e else Z.pos m / 2 ^ (- e) in
      Some (cond_Zopp s a)
  | _ => None
  end.

(** The conversion is undefined when the truncated value does not fit
    the destination [lo, hi]. *)
Definition to_int (lo hi : Z) (f : spec_float) : result Z :=
  match trunc f with
  | Some z => if (lo <=? z) && (z <=? hi) then ok z else throw FloatConversion
  | None => throw FloatConversion
  end.
End F32.

(** ** Colors

    [RGBAColor] is declared in keyledsd/common.h, which is not among the
    sources at hand; this file uses its four channels [red], [green],
    [blue], [alpha] of type [channel_type], an 8-bit unsigned integer. *)

Record RGBAColor : Type := mkRGBA {
  red : Z;
  green : Z;
  blue : Z;
  alpha : Z
}.

#[global] Instance RGBAColor_eq_dec : EqDecision RGBAColor.
Proof. solve_decision. Defined.

(** [RGBAColor::channel_type(a * (1.0f - ratio) + b * ratio)] *)
Definition blend_channel (a b : Z) (ratio : spec_float) : result Z :=
  F32.to_int 0 255
    (F32.add (F32.mul (F32.of_Z a) (F32.sub (F32.of_Z 1) ratio))
             (F32.mul (F32.of_Z b) ratio)).

(** ** Gradient table builder: [WavePlugin::generateColorTable] *)

Definition table_size : nat := Z.to_nat accuracy.

(** Body of the inner loop, lines 185-192. *)
Definition fill_slot (first last : nat) (colorA colorB : RGBAColor)
    (idx : nat) (table : list RGBAColor) : result (list RGBAColor) :=
  let ratio := F32.div (F32.of_Z (Z.of_nat (idx - first)))
                       (F32.of_Z (Z.of_nat (last - first))) in
  let* r := blend_channel (red colorA) (red colorB) ratio in
  let* g := blend_channel (green colorA) (green colorB) ratio in
  let* b := blend_channel (blue colorA) (blue colorB) ratio in
  let* a := blend_channel (alpha colorA) (alpha colorB) ratio in
  if decide (idx < length table)%nat
  then ok (<[idx := mkRGBA r g b a]> table)
  else throw ColorTableIndex.

(** Body of the outer loop, lines 179-193. *)
Definition fill_range (colors : list RGBAColor) (range : nat)
    (table : list RGBAColor) : result (list RGBAColor) :=
  let first := (range * length table / length colors)%nat in
  let last := ((range + 1) * length table / length colors)%nat in
  match colors !! range,
        colors !! (if decide (length colors <= range + 1)%nat then 0 else range + 1)%nat with
  | Some colorA, Some colorB =>
      for_loop (last - first) first (fill_slot first last colorA colorB) table
  | _, _ => throw ColorTableIndex
  end.

Definition generateColorTable (colors : list RGBAColor) : result (list RGBAColor) :=
  let table := replicate table_size (mkRGBA 0 0 0 0) in
  for_loop (length colors) 0 (fill_range colors) table.

(** ** Geometry

    [KeyDatabase::Rect], [KeyDatabase::Key], [KeyDatabase::KeyGroup],
    [RenderTarget] and [DeviceManager] are declared in headers that are
    not among the sources at hand.  The records below hold what wave.cxx
    reads from them. *)

Record Rect : Type := mkRect { x0 : Z; y0 : Z; x1 : Z; y1 : Z }.

(** [RenderTarget::key_descriptor{bidx, kidx}]: a block and a key in it. *)
Definition key_descriptor : Type := (nat * nat)%type.

Record Key : Type := mkKey {
  index : key_descriptor;
  position : Rect
}.

(** A key group has a [name()] and is a sequence of keys. *)
Record KeyGroup : Type := mkKeyGroup {
  name : string;
  keys : list Key
}.

(** The render target is one array of colors, [rt_colors], in which each
    device block starts at its own offset, [rt_blocks]: [get(bidx, kidx)]
    is the slot [kidx] of block [bidx], [begin()] is slot 0 and [end()]
    is one past the last slot. *)
Record RenderTarget : Type := mkRenderTarget {
  rt_colors : list RGBAColor;
  rt_blocks : list nat
}.

(** Address of [get(bidx, kidx)], as an offset from [begin()]. *)
Definition rt_slot (rt : RenderTarget) (d : key_descriptor) : result nat :=
  match rt_blocks rt !! d.1 with
  | Some off => ok (off + d.2)%nat
  | None => throw BufferIndex
  end.

(** [rt.get(d) = c] *)
Definition rt_write (rt : RenderTarget) (d : key_descriptor) (c : RGBAColor)
    : result RenderTarget :=
  let* i := rt_slot rt d in
  if decide (i < length (rt_colors rt))%nat
  then ok (mkRenderTarget (<[i := c]> (rt_colors rt)) (rt_blocks rt))
  else throw BufferIndex.

(** What the constructor and [computePhases] ask of the device manager:
    [getRenderTarget()], [keyDB().find(descriptor)] (with [None] for
    [keyDB().end()]), [keyDB().bounds()] and, for every block of
    [device().blocks()], the key codes of [keys()]. *)
Record DeviceManager : Type := mkDeviceManager {
  getRenderTarget : RenderTarget;
  keyDB_find : key_descriptor -> option Key;
  keyDB_bounds : Rect;
  device_blocks : list (list Z)
}.

(** The WARNING of line 133. *)
Record warning : Type := MissingKey { w_block : nat; w_key : nat; w_code : Z }.

(** ** The plugin state (lines 198-208) *)

Record WavePlugin : Type := mkWavePlugin {
  m_buffer : RenderTarget;
  m_keys : KeyGroup;
  m_phases : list Z;
  m_colors : list RGBAColor;
  m_time : Z;
  m_period : Z;
  m_length : Z;
  m_direction : Z
}.

(** ** Geometry-to-phase mapper: [WavePlugin::computePhases] *)

(** [static constexpr float pi = 3.14159265358979f;], the binary32 value
    nearest to the literal: 13176795 * 2^-22. *)
Definition pi : spec_float := S754_finite false 13176795 (-22).

(** [for (item : l) body], threading the loop state. *)
Fixpoint for_each {A S} (l : list A) (body : A -> S -> result S) (s : S)
    : result S :=
  match l with
  | [] => ok s
  | a :: l' => let* s' := body a s in for_each l' body s'
  end.

Section Mapper.

(** The coordinate type of [Rect] is declared in KeyDatabase.h.  Lines
    138-145 mix coordinates with [int] operands, so their arithmetic is
    done in [int] when coordinates are signed and in [unsigned] when
    they are not: the signedness is a parameter of the model. *)
Variable signed_coords : bool.

(** [std::sin] and [std::cos] on [float], from the C library. *)
Variables std_sin std_cos : spec_float -> spec_float.

Definition coord (z : Z) : Z := if signed_coords then i32 z else u32 z.

(** Lines 138-139 (and 158-159): [int x = (p.x0 + p.x1) / 2]. *)
Definition midpoint (a b : Z) : Z := i32 (Z.quot (coord (a + b)) 2).

(** Line 144: [x = accuracy * (x - bounds.x0) / (bounds.x1 - bounds.x0)]. *)
Definition normalize_x (bounds : Rect) (x : Z) : result Z :=
  let w := coord (x1 bounds - x0 bounds) in
  if w =? 0 then throw DivisionByZero
  else ok (i32 (coord (Z.quot (coord (accuracy * coord (x - x0 bounds))) w))).

(** Line 145:
    [y = accuracy - accuracy * (y - bounds.x0) / (bounds.x1 - bounds.x0)]. *)
Definition normalize_y (bounds : Rect) (y : Z) : result Z :=
  let w := coord (x1 bounds - x0 bounds) in
  if w =? 0 then throw DivisionByZero
  else ok (i32 (coord (accuracy
                       - coord (Z.quot (coord (accuracy * coord (y - x0 bounds))) w)))).

(** Lines 146-147:
    [val = (freqX * x + freqY * y) / accuracy % accuracy], plus
    [accuracy] when negative. *)
Definition phase_value (freqX freqY x y : Z) : Z :=
  let val := Z.rem (Z.quot (i32 (i32 (freqX * x) + i32 (freqY * y))) accuracy)
                   accuracy in
  if val <? 0 then i32 (val + accuracy) else val.

(** Lines 138-149 (and 158-169): the phase pushed for a key at [pos]. *)
Definition key_phase (bounds : Rect) (freqX freqY : Z) (pos : Rect) : result Z :=
  let x := midpoint (x0 pos) (x1 pos) in
  let y := midpoint (y0 pos) (y1 pos) in
  if (x =? 0) && (y =? 0) then ok 0
  else
    let* x' := normalize_x bounds x in
    let* y' := normalize_y bounds y in
    ok (u32 (phase_value freqX freqY x' y')).

(** The phases pushed so far and the warnings logged so far. *)
Definition mapper_state : Type := (list Z * list warning)%type.

(** Lines 130-150: the keys of block [bidx] from [kidx] on. *)
Fixpoint block_keys (manager : DeviceManager) (freqX freqY : Z)
    (bidx kidx : nat) (codes : list Z) (st : mapper_state) : result mapper_state :=
  match codes with
  | [] => ok st
  | code :: codes' =>
      let* st' :=
        match keyDB_find manager (bidx, kidx) with
        | None => ok (st.1 ++ [0], st.2 ++ [MissingKey bidx kidx code])
        | Some key =>
            let* val := key_phase (keyDB_bounds manager) freqX freqY (position key) in
            ok (st.1 ++ [val], st.2)
        end in
      block_keys manager freqX freqY bidx (S kidx) codes' st'
  end.

(** Lines 152-154: the filler between the last key of block [bidx] and
    the first slot of the next block, or the end of the buffer. *)
Definition block_filler (manager : DeviceManager) (buffer : RenderTarget)
    (bidx nkeys : nat) (st : mapper_state) : result mapper_state :=
  let* cur := rt_slot buffer (bidx, nkeys) in
  let* next :=
    if decide (bidx + 1 < length (device_blocks manager))%nat
    then rt_slot buffer ((bidx + 1)%nat, 0%nat)
    else ok (length (rt_colors buffer)) in
  if decide (cur <= next)%nat
  then ok (st.1 ++ replicate (next - cur) 0, st.2)
  else throw NegativeCount.

(** Lines 126-155: the blocks from [bidx] on. *)
Fixpoint all_blocks (manager : DeviceManager) (buffer : RenderTarget)
    (freqX freqY : Z) (bidx : nat) (blocks : list (list Z)) (st : mapper_state)
    : result mapper_state :=
  match blocks with
  | [] => ok st
  | block :: blocks' =>
      let* st1 := block_keys manager freqX freqY bidx 0 block st in
      let* st2 := block_filler manager buffer bidx (length block) st1 in
      all_blocks manager buffer freqX freqY (S bidx) blocks' st2
  end.

(** Lines 157-170: the keys of the configured group. *)
Definition group_keys (manager : DeviceManager) (freqX freqY : Z)
    (group : list Key) (st : mapper_state) : result mapper_state :=
  for_each group
    (fun key st =>
       let* val := key_phase (keyDB_bounds manager) freqX freqY (position key) in
       ok (st.1 ++ [val], st.2))
    st.

(** Lines 117-119. *)
Definition frequency (length : Z) : spec_float :=
  F32.div (F32.mul (F32.of_Z accuracy) (F32.of_Z 1000)) (F32.of_Z length).

Definition angle (direction : Z) : spec_float :=
  F32.mul (F32.div (F32.mul (F32.of_Z 2) pi) (F32.of_Z 360)) (F32.of_Z direction).

Definition to_int32 : spec_float -> result Z := F32.to_int (- 2 ^ 31) (2 ^ 31 - 1).

Definition set_phases (s : WavePlugin) (phases : list Z) : WavePlugin :=
  mkWavePlugin (m_buffer s) (m_keys s) phases (m_colors s)
               (m_time s) (m_period s) (m_length s) (m_direction s).

Definition computePhases (manager : DeviceManager) (s : WavePlugin)
    : result (WavePlugin * list warning) :=
  let* freqX := to_int32 (F32.mul (frequency (m_length s))
                                  (std_sin (angle (m_direction s)))) in
  let* freqY := to_int32 (F32.mul (frequency (m_length s))
                                  (std_cos (angle (m_direction s)))) in
  let* st :=
    match keys (m_keys s) with
    | [] => all_blocks manager (m_buffer s) freqX freqY 0 (device_blocks manager) ([], [])
    | group => group_keys manager freqX freqY group ([], [])
    end in
  ok (set_phases s st.1, st.2).

End Mapper.

(** ** [std::stoul] in base 10

    The C++ library function, as [strtoul] defines it: leading white
    space is skipped, one sign is accepted, then the longest run of
    decimal digits is read and what follows is ignored.  No digit is
    [std::invalid_argument], a magnitude above [ULONG_MAX] is
    [std::out_of_range], and a minus sign negates the magnitude in
    [unsigned long]. *)

Definition isspace (c : ascii) : bool :=
  let n := nat_of_ascii c in
  Nat.eqb n 32 || (Nat.leb 9 n && Nat.leb n 13).

Fixpoint skip_spaces (s : string) : string :=
  match s with
  | String c s' => if isspace c then skip_spaces s' else s
  | EmptyString => s
  end.

Definition digit (c : ascii) : option Z :=
  let n := Z.of_nat (nat_of_ascii c) in
  if (48 <=? n) && (n <=? 57) then Some (n - 48) else None.

(** [acc] is [None] until a digit has been read. *)
Fixpoint digits (s : string) (acc : option Z) : option Z :=
  match s with
  | String c s' =>
      match digit c with
      | Some d => digits s' (Some (10 * default 0 acc + d))
      | None => acc
      end
  | EmptyString => acc
  end.

(** The optional sign: whether it is a minus, and what follows it. *)
Definition split_sign (s : string) : bool * string :=
  match s with
  | String c r =>
      if Ascii.eqb c "-" then (true, r)
      else if Ascii.eqb c "+" then (false, r)
      else (false, s)
  | EmptyString => (false, s)
  end.

Definition stoul (s : string) : result Z :=
  let (neg, s2) := split_sign (skip_spaces s) in
  match digits s2 None with
  | None => throw InvalidArgument
  | Some v =>
      if 2 ^ 64 <=? v then throw OutOfRange
      else ok (if neg then u64 (- v) else v)
  end.

(** ** The constructor: [WavePlugin::WavePlugin] *)

(** [Configuration::Plugin] is declared in Configuration.h; the
    constructor reads it through [conf[key]] and [conf.items()]. *)
Record Plugin : Type := mkPlugin {
  conf_at : string -> string;
  items : list (string * string)
}.

Definition default_period : Z := 10000.
Definition default_length : Z := 1000.
Definition default_direction : Z := 0.

(** [if (value > 0) { m_field = value; }]: an [unsigned long] stored in
    an [unsigned] member. *)
Definition override (current value : Z) : Z :=
  if 0 <? value then u32 value else current.

(** Lines 74-80.  [m_keys] is default-constructed, hence empty, unless
    the search finds the group. *)
Definition no_group : KeyGroup := mkKeyGroup EmptyString [].

Definition select_group (groupStr : string) (groups : list KeyGroup) : KeyGroup :=
  if String.eqb groupStr EmptyString then no_group
  else
    match List.find (fun group => String.eqb (name group) groupStr) groups with
    | Some group => group
    | None => no_group
    end.

Section Setup.

Variable signed_coords : bool.
Variables std_sin std_cos : spec_float -> spec_float.

(** [RGBAColor::parse], from common.h; [None] when it throws. *)
Variable RGBAColor_parse : string -> option RGBAColor.

(** Lines 65-70. *)
Definition load_colors (conf : Plugin) : result (list RGBAColor) :=
  for_each (items conf)
    (fun item colors =>
       if String.prefix "color" item.1
       then match RGBAColor_parse item.2 with
            | Some c => ok (colors ++ [c])
            | None => throw ColorParseError
            end
       else ok colors)
    [].

(** Line 84. *)
Definition clear_buffer (s : WavePlugin) : WavePlugin :=
  mkWavePlugin
    (mkRenderTarget (replicate (length (rt_colors (m_buffer s))) (mkRGBA 0 0 0 0))
                    (rt_blocks (m_buffer s)))
    (m_keys s) (m_phases s) (m_colors s)
    (m_time s) (m_period s) (m_length s) (m_direction s).

Definition WavePlugin_new (manager : DeviceManager) (conf : Plugin)
    (groups : list KeyGroup) : result (WavePlugin * list warning) :=
  let* period := stoul (conf_at conf "period") in
  let m_period := override default_period period in
  let* length := stoul (conf_at conf "length") in
  let m_length := override default_length length in
  let* direction := stoul (conf_at conf "direction") in
  let m_direction := override default_direction direction in
  let* colors := load_colors conf in
  let* m_colors := generateColorTable colors in
  let m_keys := select_group (conf_at conf "group") groups in
  let* mapped :=
    computePhases signed_coords std_sin std_cos manager
      (mkWavePlugin (getRenderTarget manager) m_keys [] m_colors
                    0 m_period m_length m_direction) in
  ok (clear_buffer mapped.1, mapped.2).

End Setup.

(** ** Frame sampler: [WavePlugin::render] *)

(** Lines 89-90; [ms] is an [unsigned long], [m_time] an [unsigned]. *)
Definition advance (time period ms : Z) : Z :=
  let time' := u32 (u64 (time + ms)) in
  if period <=? time' then u32 (time' - period) else time'.

(** Line 92: [int t = accuracy * m_time / m_period], an unsigned
    product and quotient converted to [int]. *)
Definition global_phase (time period : Z) : result Z :=
  if period =? 0 then throw DivisionByZero
  else ok (i32 (u32 (accuracy * time) / period)).

(** Lines 97-98 (and 105-106): [m_phases[idx]] is [unsigned], so the
    difference is taken in [unsigned] and converted to [int]. *)
Definition local_phase (t phase : Z) : Z :=
  let tphi := i32 (u32 (u32 t - phase)) in
  if tphi <? 0 then i32 (tphi + accuracy) else tphi.

(** [m_colors[tphi]] *)
Definition color_at (colors : list RGBAColor) (tphi : Z) : result RGBAColor :=
  if tphi <? 0 then throw ColorTableIndex
  else
    match colors !! Z.to_nat tphi with
    | Some c => ok c
    | None => throw ColorTableIndex
    end.

(** [m_colors[tphi]] for the phase at [idx]. *)
Definition sample (phases : list Z) (colors : list RGBAColor) (t : Z) (idx : nat)
    : result RGBAColor :=
  match phases !! idx with
  | Some phase => color_at colors (local_phase t phase)
  | None => throw PhaseIndex
  end.

(** Lines 96-101. *)
Definition render_buffer (phases : list Z) (colors : list RGBAColor) (t : Z)
    (buffer : RenderTarget) : result RenderTarget :=
  let* cells :=
    for_loop (length (rt_colors buffer)) 0
      (fun idx cells =>
         let* c := sample phases colors t idx in
         ok (<[idx := c]> cells))
      (rt_colors buffer) in
  ok (mkRenderTarget cells (rt_blocks buffer)).

(** Lines 104-109: the keys of the group from [idx] on. *)
Fixpoint render_keys (phases : list Z) (colors : list RGBAColor) (t : Z)
    (idx : nat) (group : list Key) (buffer : RenderTarget) : result RenderTarget :=
  match group with
  | [] => ok buffer
  | key :: group' =>
      let* c := sample phases colors t idx in
      let* buffer' := rt_write buffer (index key) c in
      render_keys phases colors t (S idx) group' buffer'
  end.

Definition set_frame (s : WavePlugin) (time : Z) (buffer : RenderTarget) : WavePlugin :=
  mkWavePlugin buffer (m_keys s) (m_phases s) (m_colors s)
               time (m_period s) (m_length s) (m_direction s).

(** [render(ms, target)].  The last statement, [blend(target, m_buffer)],
    composes the buffer onto the caller's target and leaves the plugin
    untouched; the model returns the plugin after the call. *)
Definition render (ms : Z) (s : WavePlugin) : result WavePlugin :=
  let time := advance (m_time s) (m_period s) ms in
  let* t := global_phase time (m_period s) in
  let* buffer :=
    match keys (m_keys s) with
    | [] =>
        if decide (length (rt_colors (m_buffer s)) = length (m_phases s))
        then render_buffer (m_phases s) (m_colors s) t (m_buffer s)
        else throw AssertionFailed
    | group =>
        if decide (length group = length (m_phases s))
        then render_keys (m_phases s) (m_colors s) t 0 group (m_buffer s)
        else throw AssertionFailed
    end in
  ok (set_frame s time buffer).

(** A sequence of frames. *)
Definition render_all (deltas : list Z) (s : WavePlugin) : result WavePlugin :=
  for_each deltas render s.

(** ** Reference values for the scenarios *)

Definition gray (v : Z) : RGBAColor := mkRGBA v v v v.

(** The two-stop gradient of the second scenario: a ramp from the first
    stop at index 0 up to the second stop at index 512, and back. *)
Definition two_stop_ramp (i : nat) : RGBAColor :=
  if (i <? 512)%nat then gray (255 * Z.of_nat i / 512)
  else gray (255 * Z.of_nat (1024 - i) / 512).

(** Channel-wise distance at most [tol]. *)
Definition near (tol : Z) (c d : RGBAColor) : Prop :=
  Z.abs (red c - red d) <= tol /\ Z.abs (green c - green d) <= tol /\
  Z.abs (blue c - blue d) <= tol /\ Z.abs (alpha c - alpha d) <= tol.


(** Following the words of the specification (4.2, step 3, and the open
    question of section 9): the Y coordinate normalized against the
    Y-axis bounds of the bounding box, then inverted. *)
Definition normalize_y_spec (bounds : Rect) (y : Z) : Z :=
  accuracy - accuracy * (y - y0 bounds) / (y1 bounds - y0 bounds).

(** ** Sample inputs *)

(** The values of [std::sin] and [std::cos] at angle 0, which is all the
    samples below need: they keep the default direction 0. *)
Definition sin_at_zero : spec_float -> spec_float := fun _ => S754_zero false.
Definition cos_at_zero : spec_float -> spec_float := fun _ => F32.of_Z 1.

(** A color parser that knows two names. *)
Definition parse_named (s : string) : option RGBAColor :=
  if String.eqb s "black" then Some (gray 0)
  else if String.eqb s "white" then Some (gray 255)
  else None.

(** A device of two blocks, of five and six keys, in a buffer of sixteen
    slots: block 0 starts at slot 0 and block 1 at slot 8.  Key (0, 0)
    has no position, key (1, 2) is missing from the database. *)
Definition sample_keyDB (d : key_descriptor) : option Key :=
  match d with
  | (0, 0)%nat => Some (mkKey d (mkRect 0 0 0 0))
  | (0, 1)%nat => Some (mkKey d (mkRect 200 60 220 80))
  | (1, 2)%nat => None
  | (b, k) =>
      Some (mkKey d (mkRect (Z.of_nat k * 40) (Z.of_nat b * 50 + 20)
                            (Z.of_nat k * 40 + 20) (Z.of_nat b * 50 + 40)))
  end.

Definition sample_bounds : Rect := mkRect 10 20 410 120.

Definition sample_device : DeviceManager :=
  mkDeviceManager
    (mkRenderTarget (replicate 16 (gray 9)) [0; 8]%nat)
    sample_keyDB sample_bounds
    [[1; 2; 3; 4; 5]; [6; 7; 8; 9; 10; 11]].

Definition sample_groups : list KeyGroup :=
  [mkKeyGroup "pair"
     [mkKey (0, 1)%nat (mkRect 200 60 220 80);
      mkKey (1, 3)%nat (mkRect 120 70 140 90)]].

(** A configuration with the given period and group, the other scalars
    supplied as 0, and the two gradient stops black and white. *)
Definition sample_conf (period group : string) : Plugin :=
  mkPlugin
    (fun key =>
       if String.eqb key "period" then period
       else if String.eqb key "group" then group
       else "0")
    [("color0", "black"); ("color1", "white"); ("group", group);
     ("period", period)].

(** The configuration [conf] with no group configured. *)
Definition without_group (conf : Plugin) : Plugin :=
  mkPlugin (fun key => if String.eqb key "group" then EmptyString else conf_at conf key)
           (items conf).

(** ** Reference definitions for the sampler *)

(** Following the words of the specification (4.3, step 3): the
    difference of the global phase and the element's phase, plus N when
    it is negative. *)
Definition cyclic_index (t phase : Z) : Z :=
  if t - phase <? 0 then t - phase + accuracy else t - phase.

(** The time accumulator after a delta, following the words of the
    specification (4.3, step 1), and the global phase (step 2). *)
Definition wrapped_time (time period delta : Z) : Z :=
  if period <=? time + delta then time + delta - period else time + delta.

Definition phase_of_time (time period : Z) : Z := accuracy * time / period.

(** The color [render] stores for the element at [idx]. *)
Definition frame_color (phases : list Z) (colors : list RGBAColor) (t : Z)
    (idx : nat) : RGBAColor :=
  default (mkRGBA 0 0 0 0)
    (phases !! idx ≫= fun phase => colors !! Z.to_nat (local_phase t phase)).

(** The slot [get(key.index)] designates in a buffer of block offsets
    [blocks]. *)
Definition key_slot (blocks : list nat) (key : Key) : nat :=
  (default 0 (blocks !! (index key).1) + (index key).2)%nat.

(** Every key of the group designates a slot of the buffer. *)
Definition slots_valid (buffer : RenderTarget) (group : list Key) : Prop :=
  Forall (fun key =>
            is_Some (rt_blocks buffer !! (index key).1) /\
            (key_slot (rt_blocks buffer) key < length (rt_colors buffer))%nat)
         group.

(** The cells of the buffer after the keys of [group], from [idx] on,
    have been painted in order. *)
Fixpoint paint_keys (phases : list Z) (colors : list RGBAColor) (t : Z)
    (blocks : list nat) (idx : nat) (group : list Key) (cells : list RGBAColor)
    : list RGBAColor :=
  match group with
  | [] => cells
  | key :: group' =>
      paint_keys phases colors t blocks (S idx) group'
        (<[key_slot blocks key := frame_color phases colors t idx]> cells)
  end.

(** The cells of the buffer after a frame at global phase [t]. *)
Definition paint_frame (s : WavePlugin) (t : Z) (cells : list RGBAColor)
    : list RGBAColor :=
  match keys (m_keys s) with
  | [] => frame_color (m_phases s) (m_colors s) t <$> seq 0 (length cells)
  | group => paint_keys (m_phases s) (m_colors s) t (rt_blocks (m_buffer s)) 0 group cells
  end.

(** The plugin after a frame at accumulated time [time] and global
    phase [t]. *)
Definition frame_of (s : WavePlugin) (time t : Z) : WavePlugin :=
  set_frame s time
    (mkRenderTarget (paint_frame s t (rt_colors (m_buffer s)))
                    (rt_blocks (m_buffer s))).

(** The preconditions of the sampler (4.3): the tables were built, and
    the phase table is index-compatible with the element set. *)
Definition buffer_compatible (s : WavePlugin) : Prop :=
  match keys (m_keys s) with
  | [] => length (rt_colors (m_buffer s)) = length (m_phases s)
  | group => length group = length (m_phases s) /\ slots_valid (m_buffer s) group
  end.

(** Every phase lies in the cyclic domain [0, accuracy). *)
Definition in_domain (phases : list Z) : Prop :=
  Forall (fun phase => 0 <= phase < accuracy) phases.

Definition tables_built (s : WavePlugin) : Prop :=
  in_domain (m_phases s) /\ length (m_colors s) = table_size.

Definition total (deltas : list Z) : Z := foldr Z.add 0 deltas.

(** ** Reference definitions for the mapper *)

(** The layout of the render target of a device, whose constructor is
    not among the sources at hand: one offset per block, a block ending
    at or before the start of the next one, the last block at or before
    the end of the buffer. *)
Fixpoint layout_from (size : nat) (offsets : list nat) (blocks : list (list Z))
    : bool :=
  match offsets, blocks with
  | [], [] => true
  | off :: offsets', block :: blocks' =>
      (off + length block <=? hd size offsets')%nat
      && layout_from size offsets' blocks'
  | _, _ => false
  end.

(** Block 0 starts at slot 0, and an empty device has an empty buffer. *)
Definition layout_ok (manager : DeviceManager) (buffer : RenderTarget) : bool :=
  (hd (length (rt_colors buffer)) (rt_blocks buffer) =? 0)%nat
  && layout_from (length (rt_colors buffer)) (rt_blocks buffer)
                 (device_blocks manager).

(** What the phase table holds for the key [d] of code [code]: phase 0
    and a warning in the log when the database has no such key, the phase
    of its position otherwise. *)
Definition key_entry (signed_coords : bool) (manager : DeviceManager)
    (freqX freqY : Z) (d : key_descriptor) (code val : Z) (log : list warning)
    : Prop :=
  match keyDB_find manager d with
  | None => val = 0 /\ MissingKey d.1 d.2 code ∈ log
  | Some key =>
      key_phase signed_coords (keyDB_bounds manager) freqX freqY (position key)
      = inr val
  end.

(** ** Sample plugin states *)

(** A color table whose 1024 entries are all different. *)
Definition index_colors : list RGBAColor :=
  (fun i => mkRGBA (Z.of_nat i mod 256) 0 0 (Z.of_nat i / 256)) <$> seq 0 1024.

(** One element of phase 24 in whole-buffer mode, just set up. *)
Definition fresh_plugin (period : Z) : WavePlugin :=
  mkWavePlugin (mkRenderTarget [gray 0] [0%nat]) no_group [24] index_colors
               0 period 1000 0.

(** The same plugin at a given time. *)
Definition plugin_at (time period : Z) : WavePlugin :=
  mkWavePlugin (mkRenderTarget [gray 0] [0%nat]) no_group [24] index_colors
               time period 1000 0.

(** The state the constructor hands to [computePhases] for the sample
    device, in whole-buffer mode and for the sample group. *)
Definition sample_plugin (group : KeyGroup) : WavePlugin :=
  mkWavePlugin (getRenderTarget sample_device) group [] index_colors
               0 10000 1000 0.

(** Two keys of the sample device, painted through the phases 100 and
    200. *)
Definition group_plugin (time : Z) : WavePlugin :=
  mkWavePlugin (getRenderTarget sample_device)
    (mkKeyGroup "pair"
       [mkKey (0, 1)%nat (mkRect 200 60 220 80);
        mkKey (1, 3)%nat (mkRect 120 70 140 90)])
    [100; 200] index_colors time 1000 1000 0.

(** ** Reference definitions for the gradient table *)

(** The color lines 187-192 store: the four channels of [colorA] and
    [colorB] blended at [ratio]. *)
Definition blend_colors (colorA colorB : RGBAColor) (ratio : spec_float)
    : result RGBAColor :=
  let* r := blend_channel (red colorA) (red colorB) ratio in
  let* g := blend_channel (green colorA) (green colorB) ratio in
  let* b := blend_channel (blue colorA) (blue colorB) ratio in
  let* a := blend_channel (alpha colorA) (alpha colorB) ratio in
  ok (mkRGBA r g b a).

(** The bounds of range [range] in a gradient of [count] stops (lines
    179-180), and the stop that closes it (line 182). *)
Definition range_first (count range : nat) : nat := (range * table_size / count)%nat.
Definition range_last (count range : nat) : nat := ((range + 1) * table_size / count)%nat.
Definition closing_stop (count range : nat) : nat :=
  if decide (count <= range + 1)%nat then 0%nat else (range + 1)%nat.

(** Line 185, for slot [idx] of a range from [first] to [last]. *)
Definition slot_ratio (first last idx : nat) : spec_float :=
  F32.div (F32.of_Z (Z.of_nat (idx - first))) (F32.of_Z (Z.of_nat (last - first))).

(** The channels of a color are those of an 8-bit [channel_type]. *)
Definition channels_ok (c : RGBAColor) : Prop :=
  0 <= red c <= 255 /\ 0 <= green c <= 255 /\
  0 <= blue c <= 255 /\ 0 <= alpha c <= 255.

(** The binary32 facts the first slot of a range rests on, over the
    finitely many values involved: a ratio of 0 over a range of 1 to 1024
    slots is +0; a channel times +0 is +0; a channel times [1 - 0], plus
    +0, converts back to the channel. *)
Definition unit_ratio_check : bool :=
  forallb (fun m => match F32.div (F32.of_Z 0) (F32.of_Z (Z.of_nat m)) with
                    | S754_zero false => true
                    | _ => false
                    end)
          (seq 1 1024).

Definition closing_share_check : bool :=
  forallb (fun b => match F32.mul (F32.of_Z (Z.of_nat b)) (S754_zero false) with
                    | S754_zero false => true
                    | _ => false
                    end)
          (seq 0 256).

Definition opening_share_check : bool :=
  forallb (fun a =>
             match F32.to_int 0 255
                     (F32.add (F32.mul (F32.of_Z (Z.of_nat a))
                                       (F32.sub (F32.of_Z 1) (S754_zero false)))
                              (S754_zero false)) with
             | inr v => v =? Z.of_nat a
             | inl _ => false
             end)
          (seq 0 256).

(** * Properties *)

(** ** Machine arithmetic *)

Lemma u32_range z : 0 <= u32 z < 2 ^ 32.
Proof. unfold u32. apply Z.mod_pos_bound. lia. Qed.

Lemma u32_small z : 0 <= z < 2 ^ 32 -> u32 z = z.
Proof. intros H. unfold u32. apply Z.mod_small. exact H. Qed.

Lemma u64_small z : 0 <= z < 2 ^ 64 -> u64 z = z.
Proof. intros H. unfold u64. apply Z.mod_small. exact H. Qed.

Lemma i32_range z : - 2 ^ 31 <= i32 z < 2 ^ 31.
Proof.
  unfold i32. pose proof (Z.mod_pos_bound (z + 2 ^ 31) (2 ^ 32)). lia.
Qed.

Lemma i32_small z : - 2 ^ 31 <= z < 2 ^ 31 -> i32 z = z.
Proof. intros H. unfold i32. rewrite Z.mod_small; lia. Qed.

Lemma i32_u32 z : i32 (u32 z) = i32 z.
Proof.
  unfold i32, u32.
  rewrite Z.add_mod_idemp_l by lia. reflexivity.
Qed.

Lemma u32_u64 z : u32 (u64 z) = u32 z.
Proof.
  unfold u32, u64.
  change (2 ^ 64) with (2 ^ 32 * 2 ^ 32).
  rewrite Z.rem_mul_r by lia.
  rewrite Z.mul_comm, Z.mod_add by lia.
  apply Z.mod_mod. lia.
Qed.

(** One wrap of [2 ^ 32] is all a sum of two [unsigned] values needs. *)
Lemma u32_wrap_once z : 2 ^ 32 <= z < 2 * 2 ^ 32 -> u32 z = z - 2 ^ 32.
Proof.
  intros H. unfold u32.
  replace z with (z - 2 ^ 32 + 1 * 2 ^ 32) at 1 by lia.
  rewrite Z.mod_add by lia. apply Z.mod_small. lia.
Qed.

(** The mantissa of [pi] is the integer nearest to
    3.14159265358979 * 2^22, and it is normal for binary32. *)
Lemma pi_literal_rounding :
  2 * Z.abs (13176795 * 10 ^ 14 - 314159265358979 * 2 ^ 22) <= 10 ^ 14 /\
  2 ^ 23 <= 13176795 < 2 ^ 24 /\
  valid_binary F32.prec F32.emax pi = true.
Proof. repeat split; vm_compute; congruence. Qed.

(** ** The result monad *)

Lemma rbind_ok {A B} (m : result A) (k : A -> result B) (b : B) :
  rbind m k = inr b -> exists a, m = inr a /\ k a = inr b.
Proof. destruct m as [f | a]; simpl; [discriminate | eauto]. Qed.

Lemma rbind_fault {A B} (m : result A) (k : A -> result B) (f : fault) :
  rbind m k = inl f -> m = inl f \/ exists a, m = inr a /\ k a = inl f.
Proof. destruct m as [f' | a]; simpl; [intros [= ->]; auto | eauto]. Qed.

Ltac bind_inv H :=
  let a := fresh "a" in
  let Ha := fresh "Ha" in
  apply rbind_ok in H; destruct H as (a & Ha & H).

(** ** Gradient table builder *)

Lemma two_stop_table :
  generateColorTable [gray 0; gray 255] = inr (two_stop_ramp <$> seq 0 1024).
Proof. vm_compute. reflexivity. Qed.

(** C6: with the single gradient stop {255,0,0,255} the builder returns a
    table of exactly [accuracy] = 1024 entries, each of them
    {255,0,0,255}. *)
Theorem single_stop_table_uniform :
  exists table,
    generateColorTable [mkRGBA 255 0 0 255] = inr table /\
    length table = table_size /\
    forall i, (i < table_size)%nat -> table !! i = Some (mkRGBA 255 0 0 255).
Proof.
  exists (replicate table_size (mkRGBA 255 0 0 255)). split; [| split].
  - vm_compute. reflexivity.
  - apply length_replicate.
  - intros i Hi. apply lookup_replicate_2. exact Hi.
Qed.

(** C5 as amended: with the two stops {0,0,0,0} and {255,255,255,255}
    the table has 1024 entries; entry [i] of the first half is
    floor(255 * i / 512) on every channel, a ramp up from {0,0,0,0} at
    index 0, and entry [512 + i] of the second half is
    floor(255 * (512 - i) / 512), a ramp down from {255,255,255,255} at
    index 512; the half-way color {127,127,127,127} sits at 256 and 768. *)
Theorem two_stop_table_ramps :
  exists table,
    generateColorTable [gray 0; gray 255] = inr table /\
    length table = table_size /\
    (forall i, (i < 512)%nat -> table !! i = Some (gray (255 * Z.of_nat i / 512))) /\
    (forall i, (i < 512)%nat ->
       table !! (512 + i)%nat = Some (gray (255 * (512 - Z.of_nat i) / 512))) /\
    table !! 0%nat = Some (gray 0) /\
    table !! 256%nat = Some (gray 127) /\
    table !! 512%nat = Some (gray 255) /\
    table !! 768%nat = Some (gray 127).
Proof.
  exists (two_stop_ramp <$> seq 0 1024).
  split; [exact two_stop_table |].
  split; [rewrite length_fmap, length_seq; reflexivity |].
  split; [| split; [| repeat split; reflexivity]].
  - intros i Hi. rewrite list_lookup_fmap, lookup_seq_lt by lia. simpl.
    unfold two_stop_ramp. destruct (Nat.ltb_spec i 512); [reflexivity | lia].
  - intros i Hi. rewrite list_lookup_fmap, lookup_seq_lt by lia. simpl.
    unfold two_stop_ramp. destruct (Nat.ltb_spec (512 + i) 512); [lia |].
    do 3 f_equal. lia.
Qed.

(** C5 as stated fails: entry 512 is the second stop, {255,255,255,255},
    and no tolerance below 127 brings it near {128,128,128,128}. *)
Lemma two_stop_table_midpoint_is_second_stop :
  exists table,
    generateColorTable [gray 0; gray 255] = inr table /\
    table !! 512%nat = Some (gray 255) /\
    forall tol, tol < 127 -> ~ near tol (gray 255) (gray 128).
Proof.
  exists (two_stop_ramp <$> seq 0 1024).
  split; [exact two_stop_table |]. split; [reflexivity |].
  intros tol Htol [H _]. simpl in H. lia.
Qed.

(** ** The constructor *)

Lemma digits_nonneg s acc v :
  digits s acc = Some v -> (forall a, acc = Some a -> 0 <= a) -> 0 <= v.
Proof.
  revert acc. induction s as [| c s IH]; intros acc H Hacc; simpl in H.
  - apply Hacc, H.
  - destruct (digit c) as [d |] eqn:Hd; [| apply Hacc, H].
    apply (IH _ H). intros a [= <-].
    unfold digit in Hd.
    destruct (_ && _) eqn:Hrange; [| discriminate].
    injection Hd as <-.
    apply andb_prop in Hrange as [H48 _]. apply Z.leb_le in H48.
    destruct acc as [a0 |]; simpl; [specialize (Hacc a0 eq_refl) |]; lia.
Qed.

Lemma stoul_range s v : stoul s = inr v -> 0 <= v < 2 ^ 64.
Proof.
  unfold stoul. destruct (split_sign _) as [neg s2].
  destruct (digits s2 None) as [m |] eqn:Hm; [| discriminate].
  destruct (Z.leb_spec (2 ^ 64) m); [discriminate |].
  intros [= <-].
  assert (0 <= m) by (apply (digits_nonneg _ _ _ Hm); discriminate).
  destruct neg; [| lia].
  unfold u64. apply Z.mod_pos_bound. lia.
Qed.

Lemma override_spec current value :
  0 <= value ->
  override current value = if value =? 0 then current else value mod 2 ^ 32.
Proof.
  intros H. unfold override, u32.
  destruct (Z.ltb_spec 0 value), (Z.eqb_spec value 0); lia || reflexivity.
Qed.

Lemma computePhases_scalars b fs fc manager s s' log :
  computePhases b fs fc manager s = inr (s', log) ->
  m_period s' = m_period s /\ m_length s' = m_length s /\
  m_direction s' = m_direction s /\ m_keys s' = m_keys s /\
  m_time s' = m_time s /\ m_colors s' = m_colors s /\ m_buffer s' = m_buffer s.
Proof.
  unfold computePhases. intros H.
  bind_inv H. bind_inv H. bind_inv H.
  injection H as <- <-. repeat split.
Qed.

(** C4 as amended: whenever setup succeeds, each of period, length and
    direction was read by the unsigned conversion [std::stoul] as a value
    [v] of [0, 2^64); the parameter keeps its default (10000, 1000 and 0)
    when [v] is zero and is [v] modulo 2^32 otherwise.  The conversion
    has no negative result: a numeral with a minus sign is read as 2^64
    minus its magnitude and is not ignored. *)
Theorem setup_scalar_overrides b fs fc parse manager conf groups s log :
  WavePlugin_new b fs fc parse manager conf groups = inr (s, log) ->
  exists p l d,
    stoul (conf_at conf "period") = inr p /\
    stoul (conf_at conf "length") = inr l /\
    stoul (conf_at conf "direction") = inr d /\
    0 <= p < 2 ^ 64 /\ 0 <= l < 2 ^ 64 /\ 0 <= d < 2 ^ 64 /\
    m_period s = (if p =? 0 then 10000 else p mod 2 ^ 32) /\
    m_length s = (if l =? 0 then 1000 else l mod 2 ^ 32) /\
    m_direction s = (if d =? 0 then 0 else d mod 2 ^ 32).
Proof.
  unfold WavePlugin_new. intros H.
  apply rbind_ok in H as (p & Hp & H).
  apply rbind_ok in H as (l & Hl & H).
  apply rbind_ok in H as (d & Hd & H).
  bind_inv H. bind_inv H. bind_inv H.
  destruct a1 as [s1 log1]. injection H as <- <-.
  apply computePhases_scalars in Ha1 as (Ep & El & Ed & _).
  simpl in Ep, El, Ed.
  pose proof (stoul_range _ _ Hp). pose proof (stoul_range _ _ Hl).
  pose proof (stoul_range _ _ Hd).
  exists p, l, d. repeat (split; [assumption || lia |]).
  simpl. rewrite Ep, El, Ed.
  rewrite !override_spec by lia. auto.
Qed.

Lemma setup_scalar_overrides_witness :
  exists s log,
    WavePlugin_new false sin_at_zero cos_at_zero parse_named sample_device
      (sample_conf "2500" EmptyString) [] = inr (s, log) /\
    m_period s = 2500 /\ m_length s = 1000 /\ m_direction s = 0.
Proof.
  destruct (WavePlugin_new false sin_at_zero cos_at_zero parse_named
              sample_device (sample_conf "2500" EmptyString) []) as [f | [s log]] eqn:E;
    [vm_compute in E; discriminate |].
  exists s, log. split; [reflexivity |].
  destruct (setup_scalar_overrides _ _ _ _ _ _ _ _ _ E)
    as (p & l & d & Hp & Hl & Hd & _ & _ & _ & Ep & El & Ed).
  vm_compute in Hp, Hl, Hd.
  injection Hp as <-. injection Hl as <-. injection Hd as <-.
  rewrite Ep, El, Ed. repeat split; reflexivity.
Defined.

(** C4 as stated fails: the negative override "-5" for the period is not
    ignored; setup succeeds with period 2^32 - 5 instead of the default
    10000. *)
Lemma negative_period_not_ignored :
  exists s log,
    WavePlugin_new false sin_at_zero cos_at_zero parse_named sample_device
      (sample_conf "-5" EmptyString) [] = inr (s, log) /\
    m_period s = 4294967291 /\ m_period s <> default_period.
Proof.
  destruct (WavePlugin_new false sin_at_zero cos_at_zero parse_named
              sample_device (sample_conf "-5" EmptyString) []) as [f | [s log]] eqn:E;
    [vm_compute in E; discriminate |].
  exists s, log. split; [reflexivity |].
  assert (Hp : m_period s = 4294967291).
  { vm_compute in E. injection E as <- _. reflexivity. }
  split; [exact Hp |]. rewrite Hp. discriminate.
Qed.

Lemma find_group_none groupStr groups :
  (forall group, In group groups -> name group <> groupStr) ->
  List.find (fun group => String.eqb (name group) groupStr) groups = None.
Proof.
  induction groups as [| g groups IH]; intros H; simpl; [reflexivity |].
  destruct (String.eqb_spec (name g) groupStr) as [E | _].
  - exfalso. apply (H g); [left; reflexivity | exact E].
  - apply IH. intros g' Hg'. apply H. right. exact Hg'.
Qed.

Lemma select_group_unmatched groupStr groups :
  (forall group, In group groups -> name group <> groupStr) ->
  select_group groupStr groups = no_group.
Proof.
  intros H. unfold select_group.
  destruct (String.eqb groupStr EmptyString); [reflexivity |].
  rewrite find_group_none by exact H. reflexivity.
Qed.

(** C9: when the configured group name matches no group of the list,
    setup behaves exactly as with no group configured: the two runs have
    the same outcome, and a successful one leaves the key set empty, which
    is what selects whole-buffer mode in [computePhases] and [render]. *)
Theorem unmatched_group_is_no_group b fs fc parse manager conf groups :
  (forall group, In group groups -> name group <> conf_at conf "group") ->
  WavePlugin_new b fs fc parse manager conf groups
  = WavePlugin_new b fs fc parse manager (without_group conf) groups /\
  forall s log,
    WavePlugin_new b fs fc parse manager conf groups = inr (s, log) ->
    keys (m_keys s) = [].
Proof.
  intros H.
  assert (Hsel : select_group (conf_at conf "group") groups = no_group)
    by (apply select_group_unmatched, H).
  split.
  - unfold WavePlugin_new, load_colors, without_group. simpl.
    rewrite Hsel. reflexivity.
  - intros s log Hnew. unfold WavePlugin_new in Hnew.
    bind_inv Hnew. bind_inv Hnew. bind_inv Hnew. bind_inv Hnew.
    bind_inv Hnew. bind_inv Hnew.
    destruct a4 as [s1 log1]. injection Hnew as <- <-.
    apply computePhases_scalars in Ha4 as (_ & _ & _ & Hk & _).
    simpl in *. rewrite Hk, Hsel. reflexivity.
Qed.

Lemma unmatched_group_is_no_group_witness :
  WavePlugin_new false sin_at_zero cos_at_zero parse_named sample_device
    (sample_conf "0" "arrows") sample_groups
  = WavePlugin_new false sin_at_zero cos_at_zero parse_named sample_device
      (without_group (sample_conf "0" "arrows")) sample_groups.
Proof.
  apply (unmatched_group_is_no_group false sin_at_zero cos_at_zero parse_named
           sample_device (sample_conf "0" "arrows") sample_groups).
  intros group [<- | []]. simpl. discriminate.
Defined.

(** ** Geometry-to-phase mapper *)

(** C3 fails on the code: lines 145 and 165 normalize Y against the
    X-axis bounds.  [normalize_y] never reads [y0] and [y1] of the
    bounding box, and for the key at the center of the box
    (10,20)-(410,120) it returns 871 where the normalization against the
    Y-axis bounds gives 512; with freqX = 0 and freqY = 1024 the phase of
    that key is 871 instead of 512. *)
Theorem normalize_y_reads_x_bounds :
  (forall b bx0 by0 bx1 by1 by0' by1' y,
     normalize_y b (mkRect bx0 by0 bx1 by1) y
     = normalize_y b (mkRect bx0 by0' bx1 by1') y) /\
  (forall b,
     midpoint b 200 220 = 210 /\ midpoint b 60 80 = 70 /\
     normalize_x b sample_bounds 210 = inr 512 /\
     normalize_y b sample_bounds 70 = inr 871 /\
     normalize_y_spec sample_bounds 70 = 512 /\
     key_phase b sample_bounds 0 1024 (mkRect 200 60 220 80) = inr 871 /\
     phase_value 0 1024 512 (normalize_y_spec sample_bounds 70) = 512).
Proof.
  split.
  - reflexivity.
  - intros []; vm_compute; repeat split; reflexivity.
Qed.

Lemma phase_value_range freqX freqY x y :
  0 <= phase_value freqX freqY x y < accuracy.
Proof.
  unfold phase_value, accuracy.
  set (q := Z.quot _ 1024).
  pose proof (Z.rem_bound_abs q 1024 ltac:(lia)) as Hrem.
  destruct (Z.ltb_spec (Z.rem q 1024) 0).
  - rewrite i32_small; lia.
  - lia.
Qed.

Lemma key_phase_range b bounds freqX freqY pos val :
  key_phase b bounds freqX freqY pos = inr val -> 0 <= val < accuracy.
Proof.
  unfold key_phase. destruct (_ && _).
  - intros [= <-]. unfold accuracy. lia.
  - intros H. bind_inv H. bind_inv H. injection H as <-.
    pose proof (phase_value_range freqX freqY a a0) as Hr.
    rewrite u32_small; unfold accuracy in *; lia.
Qed.

Lemma in_domain_snoc phases val :
  in_domain phases -> 0 <= val < accuracy -> in_domain (phases ++ [val]).
Proof. intros H Hv. apply Forall_app. split; [exact H | repeat constructor; lia]. Qed.

Lemma block_keys_in_domain b manager freqX freqY bidx codes :
  forall kidx st st',
    block_keys b manager freqX freqY bidx kidx codes st = inr st' ->
    in_domain st.1 -> in_domain st'.1.
Proof.
  induction codes as [| code codes IH]; intros kidx st st' H Hst; simpl in H.
  - injection H as <-. exact Hst.
  - bind_inv H. apply (IH _ _ _ H).
    destruct (keyDB_find manager (bidx, kidx)) as [key |].
    + bind_inv Ha. injection Ha as <-. simpl.
      apply in_domain_snoc; [exact Hst |].
      eapply key_phase_range; eassumption.
    + injection Ha as <-. simpl.
      apply in_domain_snoc; [exact Hst | unfold accuracy; lia].
Qed.

Lemma block_filler_in_domain manager buffer bidx nkeys st st' :
  block_filler manager buffer bidx nkeys st = inr st' ->
  in_domain st.1 -> in_domain st'.1.
Proof.
  unfold block_filler. intros H Hst. bind_inv H. bind_inv H.
  destruct (decide (a <= a0)%nat); [| discriminate].
  injection H as <-. simpl. apply Forall_app. split; [exact Hst |].
  apply Forall_replicate. unfold accuracy. lia.
Qed.

Lemma all_blocks_in_domain b manager buffer freqX freqY blocks :
  forall bidx st st',
    all_blocks b manager buffer freqX freqY bidx blocks st = inr st' ->
    in_domain st.1 -> in_domain st'.1.
Proof.
  induction blocks as [| block blocks IH]; intros bidx st st' H Hst; simpl in H.
  - injection H as <-. exact Hst.
  - bind_inv H. bind_inv H. apply (IH _ _ _ H).
    eapply block_filler_in_domain; [eassumption |].
    eapply block_keys_in_domain; eassumption.
Qed.

Lemma group_keys_in_domain b manager freqX freqY group :
  forall st st',
    group_keys b manager freqX freqY group st = inr st' ->
    in_domain st.1 -> in_domain st'.1.
Proof.
  unfold group_keys.
  induction group as [| key group IH]; intros st st' H Hst; simpl in H.
  - injection H as <-. exact Hst.
  - bind_inv H. apply (IH _ _ H).
    bind_inv Ha. injection Ha as <-. simpl.
    apply in_domain_snoc; [exact Hst |].
    eapply key_phase_range; eassumption.
Qed.

(** C2: the value of lines 146-147 is
    [(freqX * x + freqY * y) / accuracy % accuracy], plus [accuracy]
    once when that is negative, and lies in [0, 1024); every entry of the
    phase table [computePhases] produces, in whole-buffer mode and in
    group mode alike, lies in [0, 1024), the entries of keys without
    position, of missing keys and of padding being 0. *)
Theorem phases_in_cyclic_domain :
  (forall freqX freqY x y,
     let val := Z.rem (Z.quot (i32 (i32 (freqX * x) + i32 (freqY * y))) accuracy)
                      accuracy in
     phase_value freqX freqY x y = (if val <? 0 then val + accuracy else val) /\
     0 <= phase_value freqX freqY x y < accuracy) /\
  (forall b bounds freqX freqY pos,
     midpoint b (x0 pos) (x1 pos) = 0 -> midpoint b (y0 pos) (y1 pos) = 0 ->
     key_phase b bounds freqX freqY pos = inr 0) /\
  (forall b fs fc manager s s' log,
     computePhases b fs fc manager s = inr (s', log) ->
     Forall (fun phase => 0 <= phase < accuracy) (m_phases s')).
Proof.
  split; [| split].
  - intros freqX freqY x y val. split; [| apply phase_value_range].
    unfold phase_value. fold val.
    pose proof (Z.rem_bound_abs (Z.quot (i32 (i32 (freqX * x) + i32 (freqY * y)))
                                        accuracy) accuracy) as Hrem.
    fold val in Hrem. unfold accuracy in *.
    destruct (Z.ltb_spec val 0); [rewrite i32_small; lia | reflexivity].
  - intros b bounds freqX freqY pos Hx Hy. unfold key_phase.
    rewrite Hx, Hy. reflexivity.
  - intros b fs fc manager s s' log H. unfold computePhases in H.
    bind_inv H. bind_inv H. bind_inv H. injection H as <- _. simpl.
    destruct (keys (m_keys s)) as [| key group].
    + eapply (all_blocks_in_domain _ _ _ _ _ _ _ _ _ Ha1). constructor.
    + eapply (group_keys_in_domain _ _ _ _ _ _ _ Ha1). constructor.
Qed.

Lemma phases_in_cyclic_domain_witness :
  exists s' log,
    computePhases false sin_at_zero cos_at_zero sample_device
      (sample_plugin no_group) = inr (s', log) /\
    m_phases s' = [0; 871; 973; 973; 973; 0; 0; 0; 845; 845; 0; 845; 845; 845; 0; 0] /\
    Forall (fun phase => 0 <= phase < accuracy) (m_phases s').
Proof.
  destruct (computePhases false sin_at_zero cos_at_zero sample_device
              (sample_plugin no_group)) as [f | [s' log]] eqn:E;
    [vm_compute in E; discriminate |].
  exists s', log. split; [reflexivity |]. split.
  - vm_compute in E. injection E as <- _. reflexivity.
  - exact (proj2 (proj2 phases_in_cyclic_domain) _ _ _ _ _ _ _ E).
Defined.

(** ** Frame sampler *)

Lemma advance_spec time period ms :
  0 <= time < period -> 0 <= ms <= period -> 2 * period <= 2 ^ 32 ->
  advance time period ms = wrapped_time time period ms.
Proof.
  intros Ht Hms Hp. unfold advance, wrapped_time.
  rewrite u32_u64, (u32_small (time + ms)) by lia.
  destruct (Z.leb_spec period (time + ms)); [apply u32_small; lia | reflexivity].
Qed.

(** Whatever the period, the accumulator stays below it. *)
Lemma advance_range time period ms :
  0 <= time < period -> 0 <= ms <= period -> period < 2 ^ 32 ->
  0 <= advance time period ms < period.
Proof.
  intros Ht Hms Hp. unfold advance. rewrite u32_u64.
  destruct (Z_lt_le_dec (time + ms) (2 ^ 32)) as [Hlt | Hge].
  - rewrite (u32_small (time + ms)) by lia.
    destruct (Z.leb_spec period (time + ms)); [rewrite u32_small; lia | lia].
  - rewrite u32_wrap_once by lia.
    destruct (Z.leb_spec period (time + ms - 2 ^ 32)); [lia | lia].
Qed.

Lemma wrapped_time_mod time period ms :
  0 <= time < period -> 0 <= ms <= period ->
  wrapped_time time period ms = (time + ms) mod period.
Proof.
  intros Ht Hms. unfold wrapped_time.
  destruct (Z.leb_spec period (time + ms)).
  - apply Z.mod_unique with 1; lia.
  - symmetry. apply Z.mod_small. lia.
Qed.

Lemma global_phase_range time period :
  0 <= time < period ->
  exists t, global_phase time period = inr t /\ 0 <= t < accuracy /\
            t = u32 (accuracy * time) / period.
Proof.
  intros Ht. unfold global_phase.
  destruct (Z.eqb_spec period 0); [lia |].
  eexists. split; [reflexivity |].
  assert (Hq : 0 <= u32 (accuracy * time) / period < accuracy).
  { unfold accuracy in *. pose proof (u32_range (1024 * time)).
    assert (u32 (1024 * time) <= 1024 * time)
      by (unfold u32; apply Z.mod_le; lia).
    split; [apply Z.div_pos; lia |].
    apply Z.div_lt_upper_bound; lia. }
  rewrite i32_small by (unfold accuracy in *; lia).
  split; [exact Hq | reflexivity].
Qed.

Lemma global_phase_exact time period :
  0 <= time < period -> accuracy * period <= 2 ^ 32 ->
  global_phase time period = inr (phase_of_time time period).
Proof.
  intros Ht Hp.
  destruct (global_phase_range time period Ht) as (t & -> & _ & ->).
  unfold phase_of_time. rewrite u32_small; [reflexivity |].
  unfold accuracy in *. lia.
Qed.

Lemma local_phase_spec t phase :
  0 <= t < accuracy -> 0 <= phase < accuracy ->
  local_phase t phase = cyclic_index t phase /\
  0 <= local_phase t phase < accuracy.
Proof.
  unfold accuracy. intros Ht Hp. unfold local_phase, cyclic_index, accuracy.
  rewrite (u32_small t) by lia.
  rewrite i32_u32, (i32_small (t - phase)) by lia.
  destruct (Z.ltb_spec (t - phase) 0); [rewrite i32_small by lia |]; lia.
Qed.

Lemma color_at_ok colors tphi :
  length colors = table_size -> 0 <= tphi < accuracy ->
  exists c, color_at colors tphi = inr c /\ colors !! Z.to_nat tphi = Some c.
Proof.
  intros Hlen Hr. unfold color_at.
  destruct (Z.ltb_spec tphi 0); [lia |].
  destruct (colors !! Z.to_nat tphi) as [c |] eqn:E; [eauto |].
  apply lookup_ge_None in E. unfold table_size in Hlen. lia.
Qed.

(** A successful sample is the frame color. *)
Lemma sample_inv phases colors t idx c :
  sample phases colors t idx = inr c -> c = frame_color phases colors t idx.
Proof.
  unfold sample, frame_color, color_at.
  destruct (phases !! idx) as [phase |]; [| discriminate]. simpl.
  destruct (_ <? 0); [discriminate |].
  destruct (colors !! _); [| discriminate].
  intros [= <-]. reflexivity.
Qed.

Lemma sample_ok phases colors t idx phase :
  in_domain phases -> length colors = table_size -> 0 <= t < accuracy ->
  phases !! idx = Some phase ->
  sample phases colors t idx = inr (frame_color phases colors t idx) /\
  colors !! Z.to_nat (cyclic_index t phase) = Some (frame_color phases colors t idx).
Proof.
  intros Hdom Hlen Ht Hidx.
  assert (Hp : 0 <= phase < accuracy)
    by (eapply (proj1 (Forall_lookup _ _) Hdom); eassumption).
  destruct (local_phase_spec t phase Ht Hp) as [Eloc Hloc].
  destruct (color_at_ok colors _ Hlen Hloc) as (c & Hc & Hlook).
  unfold sample, frame_color. rewrite Hidx. simpl.
  rewrite <- Eloc, Hlook, Hc. auto.
Qed.

(** Under the table invariants a sample can only fail on the phase
    table. *)
Lemma sample_fault phases colors t idx f :
  in_domain phases -> length colors = table_size -> 0 <= t < accuracy ->
  sample phases colors t idx = inl f -> f = PhaseIndex.
Proof.
  intros Hdom Hlen Ht H.
  destruct (phases !! idx) as [phase |] eqn:E.
  - destruct (sample_ok _ _ _ _ _ Hdom Hlen Ht E) as [Hs _]. congruence.
  - unfold sample in H. rewrite E in H. injection H as <-. reflexivity.
Qed.

Lemma for_loop_fault {S} (body : nat -> S -> result S) (P : fault -> Prop) n :
  (forall i s f, body i s = inl f -> P f) ->
  forall lo s f, for_loop n lo body s = inl f -> P f.
Proof.
  intros Hbody. induction n as [| n IH]; intros lo s f H; simpl in H.
  - discriminate.
  - apply rbind_fault in H as [H | (s' & _ & H)]; eauto.
Qed.

Lemma rt_write_fault buffer d c f : rt_write buffer d c = inl f -> f = BufferIndex.
Proof.
  unfold rt_write, rt_slot. destruct (rt_blocks buffer !! d.1); simpl.
  - destruct (decide _); [discriminate | intros [= <-]; reflexivity].
  - intros [= <-]. reflexivity.
Qed.

Lemma render_buffer_fault phases colors t buffer f :
  in_domain phases -> length colors = table_size -> 0 <= t < accuracy ->
  render_buffer phases colors t buffer = inl f -> f = PhaseIndex.
Proof.
  intros Hdom Hlen Ht H. unfold render_buffer in H.
  apply rbind_fault in H as [H | (cells & _ & H)]; [| discriminate].
  eapply (for_loop_fault _ (fun f' => f' = PhaseIndex)); [| exact H].
  intros i s f' Hb.
  apply rbind_fault in Hb as [Hb | (c & _ & Hb)]; [| discriminate].
  eapply sample_fault; eassumption.
Qed.

Lemma render_keys_fault phases colors t group :
  in_domain phases -> length colors = table_size -> 0 <= t < accuracy ->
  forall idx buffer f,
    render_keys phases colors t idx group buffer = inl f ->
    f = PhaseIndex \/ f = BufferIndex.
Proof.
  intros Hdom Hlen Ht.
  induction group as [| key group IH]; intros idx buffer f H; simpl in H.
  - discriminate.
  - apply rbind_fault in H as [H | (c & _ & H)].
    { left. eapply sample_fault; eassumption. }
    apply rbind_fault in H as [H | (buffer' & _ & H)].
    { right. eapply rt_write_fault; eassumption. }
    eapply IH; eassumption.
Qed.

(** C10: for a global phase and a phase both in [0, 1024) the index
    computed by lines 97-98 and 105-106 is the difference of the two
    plus 1024 when negative, and lies in [0, 1024); hence, when every
    phase-table entry is in [0, 1024) and the color table has 1024
    entries, neither loop of [render] reads [m_colors] out of bounds, and
    [render] itself does not either for a delta of at most one period. *)
Theorem color_lookup_in_bounds :
  (forall t phase,
     0 <= t < accuracy -> 0 <= phase < accuracy ->
     local_phase t phase = cyclic_index t phase /\
     0 <= local_phase t phase < accuracy) /\
  (forall phases colors t,
     in_domain phases -> length colors = table_size -> 0 <= t < accuracy ->
     (forall buffer, render_buffer phases colors t buffer <> inl ColorTableIndex) /\
     (forall idx group buffer,
        render_keys phases colors t idx group buffer <> inl ColorTableIndex)) /\
  (forall s ms,
     tables_built s ->
     0 <= m_time s < m_period s -> m_period s < 2 ^ 32 -> 0 <= ms <= m_period s ->
     render ms s <> inl ColorTableIndex).
Proof.
  split; [exact local_phase_spec | split].
  - intros phases colors t Hdom Hlen Ht. split.
    + intros buffer H.
      apply render_buffer_fault in H; [discriminate | assumption..].
    + intros idx group buffer H.
      apply render_keys_fault in H as [H | H]; try discriminate; assumption.
  - intros s ms [Hdom Hlen] Htime Hperiod Hms H. unfold render in H.
    pose proof (advance_range _ _ _ Htime Hms Hperiod) as Hadv.
    destruct (global_phase_range _ _ Hadv) as (t & Hg & Ht & _).
    rewrite Hg in H. simpl in H.
    apply rbind_fault in H as [H | (buffer & _ & H)]; [| discriminate].
    destruct (keys (m_keys s)) as [| key group].
    + destruct (decide _); [| discriminate].
      apply render_buffer_fault in H; [discriminate | assumption..].
    + destruct (decide _); [| discriminate].
      apply (render_keys_fault _ _ _ (key :: group) Hdom Hlen Ht 0%nat) in H
        as [H | H]; discriminate.
Qed.

Lemma color_lookup_in_bounds_witness :
  render 300 (group_plugin 900) <> inl ColorTableIndex.
Proof.
  apply (proj2 (proj2 color_lookup_in_bounds) (group_plugin 900) 300).
  - split; [repeat constructor; unfold accuracy; lia | reflexivity].
  - simpl. lia.
  - simpl. lia.
  - simpl. lia.
Defined.

(** *** The loops of [render] *)

Lemma for_loop_inv {St} (P : nat -> St -> Prop) (body : nat -> St -> result St) n :
  forall lo s s',
    for_loop n lo body s = inr s' ->
    P lo s ->
    (forall i s0 s1, (lo <= i < lo + n)%nat -> P i s0 -> body i s0 = inr s1 -> P (S i) s1) ->
    P (lo + n)%nat s'.
Proof.
  induction n as [| n IH]; intros lo s s' H HP Hstep; simpl in H.
  - injection H as <-. rewrite Nat.add_0_r. exact HP.
  - bind_inv H. replace (lo + S n)%nat with (S lo + n)%nat by lia.
    apply (IH _ _ _ H).
    + apply (Hstep lo s); [lia | exact HP | exact Ha].
    + intros i s0 s1 Hi. apply Hstep. lia.
Qed.

Lemma for_loop_run {St} (P : nat -> St -> Prop) (body : nat -> St -> result St) n :
  forall lo s,
    P lo s ->
    (forall i s0, (lo <= i < lo + n)%nat -> P i s0 ->
                  exists s1, body i s0 = inr s1 /\ P (S i) s1) ->
    exists s', for_loop n lo body s = inr s'.
Proof.
  induction n as [| n IH]; intros lo s HP Hstep; simpl.
  - eexists. reflexivity.
  - destruct (Hstep lo s ltac:(lia) HP) as (s1 & -> & HP1). simpl.
    apply IH; [exact HP1 |]. intros i s0 Hi. apply Hstep. lia.
Qed.

(** The buffer a whole-buffer frame leaves holds the frame color of
    every slot. *)
Lemma render_buffer_inv phases colors t buffer buffer' :
  render_buffer phases colors t buffer = inr buffer' ->
  buffer' = mkRenderTarget
              (frame_color phases colors t <$> seq 0 (length (rt_colors buffer)))
              (rt_blocks buffer).
Proof.
  unfold render_buffer. intros H. bind_inv H. injection H as <-. f_equal.
  set (n := length (rt_colors buffer)) in *.
  pose (P := fun (i : nat) (cells : list RGBAColor) =>
               length cells = n /\
               take i cells = frame_color phases colors t <$> seq 0 i).
  assert (HP : P (0 + n)%nat a).
  { apply (for_loop_inv P _ _ _ _ _ Ha).
    - split; [reflexivity | rewrite take_0; reflexivity].
    - intros i cells cells' Hi [Hlen Htake] Hbody.
      bind_inv Hbody. injection Hbody as <-.
      apply sample_inv in Ha0. subst a0. split.
      + rewrite length_insert. exact Hlen.
      + rewrite (take_S_r _ _ (frame_color phases colors t i)).
        * rewrite take_insert_ge, Htake, seq_S, fmap_app by lia. reflexivity.
        * apply list_lookup_insert_eq. lia. }
  destruct HP as [Hlen Htake]. simpl in Htake.
  rewrite take_ge in Htake by lia. exact Htake.
Qed.

Lemma render_buffer_ok phases colors t buffer :
  in_domain phases -> length colors = table_size -> 0 <= t < accuracy ->
  length (rt_colors buffer) = length phases ->
  exists buffer', render_buffer phases colors t buffer = inr buffer'.
Proof.
  intros Hdom Hlen Ht Hsize. unfold render_buffer.
  destruct (for_loop_run (fun _ (_ : list RGBAColor) => True)
              (fun idx cells =>
                 let* c := sample phases colors t idx in ok (<[idx := c]> cells))
              (length (rt_colors buffer)) 0%nat (rt_colors buffer) I)
    as (cells & ->).
  - intros i cells Hi _.
    destruct (phases !! i) as [phase |] eqn:E.
    + destruct (sample_ok _ _ _ _ _ Hdom Hlen Ht E) as [-> _].
      simpl. eauto.
    + apply lookup_ge_None in E. lia.
  - simpl. eauto.
Qed.

Lemma rt_write_inv buffer key c buffer' :
  rt_write buffer (index key) c = inr buffer' ->
  buffer' = mkRenderTarget (<[key_slot (rt_blocks buffer) key := c]> (rt_colors buffer))
                           (rt_blocks buffer).
Proof.
  unfold rt_write, rt_slot, key_slot.
  destruct (rt_blocks buffer !! (index key).1) as [off |]; simpl; [| discriminate].
  destruct (decide _); [| discriminate]. intros [= <-]. reflexivity.
Qed.

Lemma rt_write_ok buffer key c :
  is_Some (rt_blocks buffer !! (index key).1) ->
  (key_slot (rt_blocks buffer) key < length (rt_colors buffer))%nat ->
  exists buffer', rt_write buffer (index key) c = inr buffer'.
Proof.
  unfold rt_write, rt_slot, key_slot. intros [off ->] Hlt. simpl in *.
  destruct (decide _); [eauto | lia].
Qed.

Lemma render_keys_inv phases colors t group :
  forall idx buffer buffer',
    render_keys phases colors t idx group buffer = inr buffer' ->
    buffer' = mkRenderTarget
                (paint_keys phases colors t (rt_blocks buffer) idx group
                            (rt_colors buffer))
                (rt_blocks buffer).
Proof.
  induction group as [| key group IH]; intros idx buffer buffer' H; simpl in H.
  - injection H as <-. destruct buffer. reflexivity.
  - bind_inv H. bind_inv H.
    apply sample_inv in Ha. apply rt_write_inv in Ha0. subst a a0.
    apply IH in H. simpl in H. exact H.
Qed.

Lemma render_keys_ok phases colors t group :
  in_domain phases -> length colors = table_size -> 0 <= t < accuracy ->
  forall idx buffer,
    slots_valid buffer group ->
    (idx + length group <= length phases)%nat ->
    exists buffer', render_keys phases colors t idx group buffer = inr buffer'.
Proof.
  intros Hdom Hlen Ht.
  induction group as [| key group IH]; intros idx buffer Hvalid Hsize; simpl.
  - eauto.
  - simpl in Hsize. apply Forall_cons in Hvalid as [[Hblock Hslot] Hvalid].
    destruct (phases !! idx) as [phase |] eqn:E;
      [| apply lookup_ge_None in E; lia].
    destruct (sample_ok _ _ _ _ _ Hdom Hlen Ht E) as [-> _]. simpl.
    destruct (rt_write_ok buffer key (frame_color phases colors t idx) Hblock Hslot)
      as (buffer' & Hw).
    rewrite Hw. simpl. apply rt_write_inv in Hw. subst buffer'.
    apply IH; [| lia].
    unfold slots_valid in *. simpl. rewrite length_insert. exact Hvalid.
Qed.

(** *** Painting the keys of a group *)

Lemma paint_keys_length phases colors t blocks group :
  forall idx cells,
    length (paint_keys phases colors t blocks idx group cells) = length cells.
Proof.
  induction group as [| key group IH]; intros idx cells; simpl; [reflexivity |].
  rewrite IH. apply length_insert.
Qed.

(** A slot no key of the group designates keeps its color. *)
Lemma paint_keys_untouched phases colors t blocks group slot :
  Forall (fun key => key_slot blocks key <> slot) group ->
  forall idx cells,
    paint_keys phases colors t blocks idx group cells !! slot = cells !! slot.
Proof.
  induction 1 as [| key group Hkey _ IH]; intros idx cells; simpl; [reflexivity |].
  rewrite IH. apply list_lookup_insert_ne. exact Hkey.
Qed.

(** The last key that designates a slot decides its color. *)
Lemma paint_keys_last phases colors t blocks group :
  forall idx cells i key,
    group !! i = Some key ->
    (forall j key', (i < j)%nat -> group !! j = Some key' ->
                    key_slot blocks key' <> key_slot blocks key) ->
    (key_slot blocks key < length cells)%nat ->
    paint_keys phases colors t blocks idx group cells !! key_slot blocks key
    = Some (frame_color phases colors t (idx + i)).
Proof.
  induction group as [| key0 group IH]; intros idx cells i key Hi Hlast Hlen;
    [discriminate |].
  destruct i as [| i]; simpl in *.
  - injection Hi as ->. rewrite paint_keys_untouched.
    + rewrite Nat.add_0_r. apply list_lookup_insert_eq. exact Hlen.
    + apply Forall_lookup. intros j key' Hj. apply (Hlast (S j)); [lia | exact Hj].
  - replace (idx + S i)%nat with (S idx + i)%nat by lia.
    apply IH; [exact Hi | | rewrite length_insert; exact Hlen].
    intros j key' Hlt Hj. apply (Hlast (S j)); [lia | exact Hj].
Qed.

(** A write to a slot that the group paints is overwritten. *)
Lemma paint_keys_absorb_insert phases colors t blocks group slot c :
  slot ∈ key_slot blocks <$> group ->
  forall idx cells,
    paint_keys phases colors t blocks idx group (<[slot := c]> cells)
    = paint_keys phases colors t blocks idx group cells.
Proof.
  induction group as [| key group IH]; intros Hin idx cells; simpl in *.
  - apply elem_of_nil in Hin. contradiction.
  - destruct (decide (key_slot blocks key = slot)) as [<- | Hne].
    + rewrite list_insert_insert_eq. reflexivity.
    + rewrite list_insert_insert_ne by exact Hne.
      apply IH. apply elem_of_cons in Hin as [-> | Hin]; [contradiction | exact Hin].
Qed.

(** Painting a group over what was painted for keys of the same slots
    forgets the earlier paint. *)
Lemma paint_keys_absorb phases colors t t' blocks group idx group' :
  (forall key, key ∈ group' -> key_slot blocks key ∈ key_slot blocks <$> group) ->
  forall idx' cells,
    paint_keys phases colors t blocks idx group
      (paint_keys phases colors t' blocks idx' group' cells)
    = paint_keys phases colors t blocks idx group cells.
Proof.
  induction group' as [| key group' IH]; intros Hsub idx' cells; simpl;
    [reflexivity |].
  rewrite IH by (intros k Hk; apply Hsub; right; exact Hk).
  apply paint_keys_absorb_insert. apply Hsub. left.
Qed.

Lemma paint_frame_length s t cells :
  length (paint_frame s t cells) = length cells.
Proof.
  unfold paint_frame. destruct (keys (m_keys s)).
  - rewrite length_fmap, length_seq. reflexivity.
  - apply paint_keys_length.
Qed.

Lemma paint_frame_absorb s t t' cells :
  paint_frame s t (paint_frame s t' cells) = paint_frame s t cells.
Proof.
  unfold paint_frame. destruct (keys (m_keys s)) as [| key group].
  - rewrite length_fmap, length_seq. reflexivity.
  - apply paint_keys_absorb. intros k Hk.
    apply list_elem_of_fmap. exists k. split; [reflexivity | exact Hk].
Qed.

(** *** One frame *)

Lemma render_inv ms s s' :
  render ms s = inr s' ->
  exists t,
    global_phase (advance (m_time s) (m_period s) ms) (m_period s) = inr t /\
    s' = frame_of s (advance (m_time s) (m_period s) ms) t.
Proof.
  unfold render. intros H.
  apply rbind_ok in H as (t & Ht & H). bind_inv H. injection H as <-.
  exists t. split; [exact Ht |].
  unfold frame_of, paint_frame. f_equal.
  destruct (keys (m_keys s)) as [| key group].
  - destruct (decide _); [| discriminate].
    apply render_buffer_inv in Ha. exact Ha.
  - destruct (decide _); [| discriminate].
    apply (render_keys_inv _ _ _ (key :: group)) in Ha. exact Ha.
Qed.

Lemma render_ok ms s t :
  tables_built s -> buffer_compatible s -> 0 <= t < accuracy ->
  global_phase (advance (m_time s) (m_period s) ms) (m_period s) = inr t ->
  render ms s = inr (frame_of s (advance (m_time s) (m_period s) ms) t).
Proof.
  intros [Hdom Hlen] Hcompat Ht Hg.
  assert (Hex : exists s', render ms s = inr s').
  { unfold render. rewrite Hg. simpl.
    unfold buffer_compatible in Hcompat.
    destruct (keys (m_keys s)) as [| key group].
    - destruct (decide _); [| contradiction].
      destruct (render_buffer_ok _ _ _ (m_buffer s) Hdom Hlen Ht Hcompat) as (b' & ->).
      simpl. eauto.
    - destruct Hcompat as [Hsize Hvalid].
      destruct (decide _); [| contradiction].
      destruct (render_keys_ok _ _ _ (key :: group) Hdom Hlen Ht 0%nat
                  (m_buffer s) Hvalid) as (b' & Hb); [simpl in *; lia |].
      simpl in Hb. rewrite Hb. simpl. eauto. }
  destruct Hex as (s' & Hs'). rewrite Hs'.
  apply render_inv in Hs' as (t' & Ht' & ->). congruence.
Qed.

(** C1 as amended: the third scenario holds (period 1000, four deltas
    of 300: the accumulator is 300, 600, 900, 200), and for every render
    call with the accumulator in [0, period), a delta in [0, period] and a
    period of at most 2^22 (so that [accuracy * m_time] fits the 32-bit
    unsigned product of line 92), the call succeeds on built tables; the
    accumulator becomes time + delta, minus the period once when that
    reaches it; the global phase is the truncated quotient
    N * time / period; and every element [i] is written
    colorTable[globalPhase - phase[i], plus N when negative]: at slot [i]
    in whole-buffer mode, at the slot of its key in group mode (the last
    key of a slot deciding), the other slots being left as they were. *)
Theorem render_frame_sampling :
  (advance 0 1000 300 = 300 /\ advance 300 1000 300 = 600 /\
   advance 600 1000 300 = 900 /\ advance 900 1000 300 = 200) /\
  forall s ms,
    tables_built s -> buffer_compatible s ->
    0 <= m_time s < m_period s -> 0 <= ms <= m_period s ->
    accuracy * m_period s <= 2 ^ 32 ->
    let time := wrapped_time (m_time s) (m_period s) ms in
    let t := phase_of_time time (m_period s) in
    let blocks := rt_blocks (m_buffer s) in
    exists s',
      render ms s = inr s' /\ m_time s' = time /\ 0 <= t < accuracy /\
      match keys (m_keys s) with
      | [] =>
          forall i phase,
            m_phases s !! i = Some phase ->
            rt_colors (m_buffer s') !! i
            = m_colors s !! Z.to_nat (cyclic_index t phase)
      | group =>
          (forall i key phase,
             group !! i = Some key -> m_phases s !! i = Some phase ->
             (forall j key', (i < j)%nat -> group !! j = Some key' ->
                             key_slot blocks key' <> key_slot blocks key) ->
             rt_colors (m_buffer s') !! key_slot blocks key
             = m_colors s !! Z.to_nat (cyclic_index t phase)) /\
          (forall slot,
             Forall (fun key => key_slot blocks key <> slot) group ->
             rt_colors (m_buffer s') !! slot = rt_colors (m_buffer s) !! slot)
      end.
Proof.
  split; [repeat split; reflexivity |].
  intros s ms Hbuilt Hcompat Htime Hms Hperiod time t blocks.
  assert (Hp : 2 * m_period s <= 2 ^ 32 /\ m_period s < 2 ^ 32)
    by (unfold accuracy in Hperiod; lia).
  destruct Hp as [Hp2 Hp1].
  pose proof (advance_spec _ _ _ Htime Hms Hp2) as Eadv. fold time in Eadv.
  pose proof (advance_range _ _ _ Htime Hms Hp1) as Hadv. rewrite Eadv in Hadv.
  pose proof (global_phase_exact _ _ Hadv Hperiod) as Hg. fold t in Hg.
  destruct (global_phase_range _ _ Hadv) as (t0 & Hg0 & Ht0 & _).
  assert (Ht : 0 <= t < accuracy) by congruence.
  exists (frame_of s time t).
  split; [rewrite <- Eadv; apply render_ok; rewrite ?Eadv; assumption |].
  split; [reflexivity |]. split; [exact Ht |].
  destruct Hbuilt as [Hdom Hlen]. unfold buffer_compatible in Hcompat.
  unfold frame_of, set_frame. cbn [m_buffer rt_colors]. unfold paint_frame.
  destruct (keys (m_keys s)) as [| key0 group] eqn:Hkeys; cbv beta iota.
  - intros i phase Hi.
    destruct (sample_ok _ _ _ _ _ Hdom Hlen Ht Hi) as [_ ->].
    rewrite list_lookup_fmap, lookup_seq_lt; [reflexivity |].
    rewrite Hcompat. eapply lookup_lt_Some. exact Hi.
  - destruct Hcompat as [Hsize Hvalid]. split.
    + intros i key phase Hkey Hi Hlast.
      destruct (sample_ok _ _ _ _ _ Hdom Hlen Ht Hi) as [_ ->].
      rewrite (paint_keys_last _ _ _ _ (key0 :: group) 0%nat _ i key Hkey Hlast).
      * reflexivity.
      * apply (proj1 (Forall_lookup _ _) Hvalid i key Hkey).
    + intros slot Hslot.
      apply (paint_keys_untouched _ _ _ _ (key0 :: group) slot Hslot).
Qed.

Lemma render_frame_sampling_witness :
  exists s',
    render 300 (group_plugin 900) = inr s' /\ m_time s' = 200 /\
    rt_colors (m_buffer s') !! 1%nat = index_colors !! 104%nat /\
    rt_colors (m_buffer s') !! 11%nat = index_colors !! 4%nat.
Proof.
  destruct (proj2 render_frame_sampling (group_plugin 900) 300)
    as (s' & Hr & Htime & _ & Hkeys & _).
  - split; [repeat constructor; unfold accuracy; lia | reflexivity].
  - split; [reflexivity |].
    repeat constructor; simpl; eauto; unfold key_slot; simpl; lia.
  - simpl. lia.
  - simpl. lia.
  - simpl. unfold accuracy. lia.
  - exists s'. split; [exact Hr |]. split; [exact Htime |]. split.
    + apply (Hkeys 0%nat (mkKey (0, 1)%nat (mkRect 200 60 220 80)) 100);
        [reflexivity | reflexivity |].
      intros [| [| [| j]]] key' Hlt Hj; try lia; try discriminate.
      injection Hj as <-. vm_compute. lia.
    + apply (Hkeys 1%nat (mkKey (1, 3)%nat (mkRect 120 70 140 90)) 200);
        [reflexivity | reflexivity |].
      intros [| [| [| j]]] key' Hlt Hj; try lia; discriminate.
Defined.

(** C1 as stated fails for long periods: with period 10000000 and a
    first delta of 5000000 the global phase N * time / period is 512, but
    the 32-bit product of line 92 wraps and the element of phase 24 is
    written colorTable[58], the entry for global phase 82, instead of
    colorTable[488]. *)
Lemma render_global_phase_wraps :
  exists s',
    render 5000000 (fresh_plugin 10000000) = inr s' /\
    m_time s' = wrapped_time 0 10000000 5000000 /\
    phase_of_time (m_time s') 10000000 = 512 /\
    cyclic_index 512 24 = 488 /\
    rt_colors (m_buffer s') !! 0%nat = index_colors !! 58%nat /\
    index_colors !! 58%nat <> index_colors !! 488%nat.
Proof.
  eexists. split; [vm_compute; reflexivity |].
  repeat split; try reflexivity. vm_compute. discriminate.
Qed.

(** *** Sequences of frames *)

Lemma frame_of_frame_of s time1 t1 time t :
  frame_of (frame_of s time1 t1) time t = frame_of s time t.
Proof.
  unfold frame_of, set_frame. cbn [m_buffer m_keys m_phases m_colors m_period
                                   m_length m_direction rt_colors rt_blocks].
  f_equal. f_equal.
  change (paint_frame s t (paint_frame s t1 (rt_colors (m_buffer s)))
          = paint_frame s t (rt_colors (m_buffer s))).
  apply paint_frame_absorb.
Qed.

Lemma frame_of_built s time t : tables_built s -> tables_built (frame_of s time t).
Proof. intros H. exact H. Qed.

Lemma frame_of_compatible s time t :
  buffer_compatible s -> buffer_compatible (frame_of s time t).
Proof.
  unfold buffer_compatible, frame_of, set_frame, slots_valid.
  cbn [m_buffer m_keys m_phases rt_colors rt_blocks].
  rewrite paint_frame_length. intros H. exact H.
Qed.

Lemma render_step s ms :
  tables_built s -> buffer_compatible s ->
  0 <= m_time s < m_period s -> 0 <= ms <= m_period s ->
  2 * m_period s <= 2 ^ 32 ->
  exists t,
    0 <= t < accuracy /\
    global_phase ((m_time s + ms) mod m_period s) (m_period s) = inr t /\
    render ms s = inr (frame_of s ((m_time s + ms) mod m_period s) t).
Proof.
  intros Hbuilt Hcompat Htime Hms Hp.
  pose proof (advance_spec _ _ _ Htime Hms Hp) as Eadv.
  rewrite wrapped_time_mod in Eadv by assumption.
  assert (Hr : 0 <= (m_time s + ms) mod m_period s < m_period s)
    by (apply Z.mod_pos_bound; lia).
  destruct (global_phase_range _ _ Hr) as (t & Hg & Ht & _).
  exists t. split; [exact Ht |]. split; [exact Hg |].
  rewrite <- Eadv. apply render_ok; rewrite ?Eadv; assumption.
Qed.

Lemma render_all_frames rest :
  forall d s,
    tables_built s -> buffer_compatible s ->
    0 <= m_time s < m_period s -> 2 * m_period s <= 2 ^ 32 ->
    Forall (fun d => 0 <= d <= m_period s) (d :: rest) ->
    exists t,
      global_phase ((m_time s + total (d :: rest)) mod m_period s) (m_period s) = inr t /\
      render_all (d :: rest) s
      = inr (frame_of s ((m_time s + total (d :: rest)) mod m_period s) t).
Proof.
  induction rest as [| d' rest IH]; intros d s Hbuilt Hcompat Htime Hp Hds;
    apply Forall_cons in Hds as [Hd Hds];
    destruct (render_step s d Hbuilt Hcompat Htime Hd Hp) as (t1 & Ht1 & Hg1 & Hr1).
  - exists t1. unfold render_all, total. simpl.
    rewrite Z.add_0_r, Hr1. split; [exact Hg1 | reflexivity].
  - set (s1 := frame_of s ((m_time s + d) mod m_period s) t1) in *.
    destruct (IH d' s1) as (t & Hg & Hr).
    + apply frame_of_built, Hbuilt.
    + apply frame_of_compatible, Hcompat.
    + simpl. apply Z.mod_pos_bound. lia.
    + exact Hp.
    + exact Hds.
    + assert (Etime : (m_time s1 + total (d' :: rest)) mod m_period s1
                      = (m_time s + total (d :: d' :: rest)) mod m_period s).
      { subst s1. cbn [frame_of set_frame m_time m_period].
        change (total (d :: d' :: rest)) with (d + total (d' :: rest)).
        rewrite Z.add_mod_idemp_l by lia. f_equal. lia. }
      rewrite Etime in Hg, Hr. exists t. split; [exact Hg |].
      unfold render_all in *.
      change (for_each (d :: d' :: rest) render s)
        with (rbind (render d s) (fun s' => for_each (d' :: rest) render s')).
      rewrite Hr1. cbn [rbind].
      rewrite Hr. subst s1. rewrite frame_of_frame_of. reflexivity.
Qed.

(** C7 as amended: for a period of at most 2^31 (so that time + delta
    fits the 32-bit accumulator), built tables and the accumulator in
    [0, period), a sequence of deltas in [0, period] whose sum is the
    period succeeds and returns the accumulator to its value; the plugin
    it leaves is the one a frame of delta 0 leaves, that is, the buffer
    holds the frame of that time; and when the state before the advance
    came out of [render], the plugin, buffer included, is that state
    again. *)
Theorem one_period_returns s deltas :
  tables_built s -> buffer_compatible s ->
  0 <= m_time s < m_period s -> m_period s <= 2 ^ 31 ->
  Forall (fun d => 0 <= d <= m_period s) deltas ->
  total deltas = m_period s ->
  exists s',
    render_all deltas s = inr s' /\
    m_time s' = m_time s /\
    render 0 s = inr s' /\
    (forall s0 d0, render d0 s0 = inr s -> s' = s).
Proof.
  intros Hbuilt Hcompat Htime Hperiod Hds Htotal.
  assert (Hp : 2 * m_period s <= 2 ^ 32) by lia.
  destruct deltas as [| d rest]; [unfold total in Htotal; simpl in Htotal; lia |].
  destruct (render_all_frames rest d s Hbuilt Hcompat Htime Hp Hds) as (t & Hg & Hr).
  assert (Eback : (m_time s + total (d :: rest)) mod m_period s = m_time s).
  { rewrite Htotal. rewrite <- (Z.mul_1_l (m_period s)) at 1.
    rewrite Z.mod_add by lia. apply Z.mod_small. exact Htime. }
  rewrite Eback in Hg, Hr.
  destruct (render_step s 0 Hbuilt Hcompat Htime ltac:(lia) Hp) as (t0 & _ & Hg0 & Hr0).
  rewrite Z.add_0_r, (Z.mod_small _ _ Htime) in Hg0, Hr0.
  assert (t0 = t) by congruence. subst t0.
  exists (frame_of s (m_time s) t).
  split; [exact Hr |]. split; [reflexivity |]. split; [exact Hr0 |].
  intros s0 d0 H0. apply render_inv in H0 as (t' & Hg' & Es).
  assert (Et : t' = t).
  { rewrite Es in Hg. cbn [frame_of set_frame m_time m_period] in Hg. congruence. }
  subst t'. rewrite Es at 1. rewrite frame_of_frame_of.
  rewrite Es at 2. f_equal.
  rewrite Es. reflexivity.
Qed.

Lemma one_period_returns_witness :
  exists s',
    render_all [400; 0; 350; 250] (group_plugin 900) = inr s' /\
    m_time s' = 900 /\ render 0 (group_plugin 900) = inr s'.
Proof.
  destruct (one_period_returns (group_plugin 900) [400; 0; 350; 250])
    as (s' & Hr & Htime & H0 & _).
  - split; [repeat constructor; unfold accuracy; lia | reflexivity].
  - split; [reflexivity |].
    repeat constructor; simpl; eauto; unfold key_slot; simpl; lia.
  - simpl. lia.
  - simpl. lia.
  - repeat constructor; simpl; lia.
  - reflexivity.
  - exists s'. split; [exact Hr |]. split; [exact Htime | exact H0].
Defined.

(** C7 as stated fails twice.  A plugin just set up has an all-zero
    buffer: one period later the accumulator is 0 again but the buffer
    holds the frame of time 0.  And with period 3000000000 and the
    accumulator at 2000000000, a delta of one period wraps the 32-bit sum
    and leaves the accumulator at 705032704. *)
Lemma one_period_changes_state :
  (exists s',
     render 1000 (fresh_plugin 1000) = inr s' /\
     m_time s' = m_time (fresh_plugin 1000) /\
     m_buffer s' <> m_buffer (fresh_plugin 1000)) /\
  (exists s',
     render 3000000000 (plugin_at 2000000000 3000000000) = inr s' /\
     m_time s' = 705032704 /\
     m_time s' <> m_time (plugin_at 2000000000 3000000000)).
Proof.
  split; eexists; (split; [vm_compute; reflexivity |]);
    split; try reflexivity; vm_compute; discriminate.
Qed.

(** ** Whole-buffer phase table *)

Lemma key_entry_log b manager freqX freqY d code val log before after :
  key_entry b manager freqX freqY d code val log ->
  key_entry b manager freqX freqY d code val (before ++ log ++ after).
Proof.
  unfold key_entry. destruct (keyDB_find manager d); [auto |].
  intros [-> Hin]. split; [reflexivity |].
  apply elem_of_app. right. apply elem_of_app. left. exact Hin.
Qed.

Lemma block_keys_shape b manager freqX freqY bidx codes :
  forall kidx st st',
    block_keys b manager freqX freqY bidx kidx codes st = inr st' ->
    exists vals ws,
      st'.1 = st.1 ++ vals /\ st'.2 = st.2 ++ ws /\
      length vals = length codes /\
      forall j code,
        codes !! j = Some code ->
        exists val,
          vals !! j = Some val /\
          key_entry b manager freqX freqY (bidx, (kidx + j)%nat) code val ws.
Proof.
  induction codes as [| code0 codes IH]; intros kidx st st' H; simpl in H.
  - injection H as <-. exists [], []. rewrite !app_nil_r.
    repeat split. intros j code Hj. discriminate.
  - bind_inv H. destruct (IH _ _ _ H) as (vals & ws & E1 & E2 & Hlen & Hkeys).
    assert (Hfirst : exists val w,
               a = (st.1 ++ [val], st.2 ++ w) /\
               key_entry b manager freqX freqY (bidx, kidx) code0 val w).
    { unfold key_entry.
      destruct (keyDB_find manager (bidx, kidx)) as [key |] eqn:Hfind.
      - bind_inv Ha. injection Ha as <-. exists a0, [].
        rewrite app_nil_r. destruct st. auto.
      - injection Ha as <-. exists 0, [MissingKey bidx kidx code0].
        split; [reflexivity |]. split; [reflexivity |]. simpl. left. }
    destruct Hfirst as (val & w & -> & Hentry). simpl in E1, E2.
    exists (val :: vals), (w ++ ws).
    rewrite E1, E2, <- !app_assoc. simpl.
    split; [reflexivity |]. split; [reflexivity |]. split; [lia |].
    intros [| j] code Hj; simpl in Hj.
    + injection Hj as <-. exists val. split; [reflexivity |].
      rewrite Nat.add_0_r.
      apply (key_entry_log _ _ _ _ _ _ _ _ [] ws) in Hentry. exact Hentry.
    + destruct (Hkeys j code Hj) as (val' & Hv & He).
      exists val'. split; [exact Hv |].
      replace (kidx + S j)%nat with (S kidx + j)%nat by lia.
      apply (key_entry_log _ _ _ _ _ _ _ _ w []) in He.
      rewrite app_nil_r in He. exact He.
Qed.

Lemma layout_from_cons size off offs block blocks :
  layout_from size (off :: offs) (block :: blocks) = true ->
  (off + length block <= hd size offs)%nat /\ layout_from size offs blocks = true.
Proof.
  simpl. intros H. apply andb_prop in H as [H1 H2].
  apply Nat.leb_le in H1. auto.
Qed.

Lemma layout_from_length size offs blocks :
  layout_from size offs blocks = true -> length offs = length blocks.
Proof.
  revert blocks. induction offs as [| off offs IH]; intros [| block blocks] H;
    simpl in *; try discriminate; [reflexivity |].
  apply andb_prop in H as [_ H]. f_equal. apply IH, H.
Qed.

(** The filler brings the table to the start of the next block. *)
Lemma block_filler_spec manager buffer bidx block blocks off offs st :
  (forall j, (off :: offs) !! j = rt_blocks buffer !! (bidx + j)%nat) ->
  length (device_blocks manager) = (bidx + length (block :: blocks))%nat ->
  layout_from (length (rt_colors buffer)) (off :: offs) (block :: blocks) = true ->
  block_filler manager buffer bidx (length block) st
  = inr (st.1 ++ replicate (hd (length (rt_colors buffer)) offs - (off + length block)) 0,
         st.2).
Proof.
  intros Hoffs Hcount Hlayout.
  apply layout_from_cons in Hlayout as [Hle Hrest].
  apply layout_from_length in Hrest.
  assert (H0 : rt_blocks buffer !! bidx = Some off).
  { specialize (Hoffs 0%nat). rewrite Nat.add_0_r in Hoffs.
    rewrite <- Hoffs. reflexivity. }
  unfold block_filler, rt_slot. simpl.
  rewrite H0. simpl.
  assert (Hnext :
    (if decide (bidx + 1 < length (device_blocks manager))%nat
     then match rt_blocks buffer !! (bidx + 1)%nat with
          | Some off' => ok (off' + 0)%nat
          | None => throw BufferIndex
          end
     else ok (length (rt_colors buffer)))
    = inr (hd (length (rt_colors buffer)) offs)).
  { rewrite <- (Hoffs 1%nat). simpl in *.
    destruct (decide _) as [Hlt | Hge].
    - destruct offs as [| off' offs]; [destruct blocks; simpl in *; [lia | discriminate] |].
      simpl. rewrite Nat.add_0_r. reflexivity.
    - destruct offs as [| off' offs]; [reflexivity |].
      destruct blocks; simpl in *; [discriminate | lia]. }
  rewrite Hnext. simpl. clear Hnext.
  destruct (decide (off + length block <= hd (length (rt_colors buffer)) offs)%nat);
    [reflexivity | lia].
Qed.

Lemma all_blocks_shape b manager buffer freqX freqY blocks :
  forall bidx offs st st',
    all_blocks b manager buffer freqX freqY bidx blocks st = inr st' ->
    (forall j, offs !! j = rt_blocks buffer !! (bidx + j)%nat) ->
    length (device_blocks manager) = (bidx + length blocks)%nat ->
    layout_from (length (rt_colors buffer)) offs blocks = true ->
    length st.1 = hd (length (rt_colors buffer)) offs ->
    exists vals ws,
      st'.1 = st.1 ++ vals /\ st'.2 = st.2 ++ ws /\
      length st'.1 = length (rt_colors buffer) /\
      (forall j block k code off,
         blocks !! j = Some block -> block !! k = Some code -> offs !! j = Some off ->
         exists val,
           st'.1 !! (off + k)%nat = Some val /\
           key_entry b manager freqX freqY ((bidx + j)%nat, k) code val ws) /\
      (forall slot phase,
         vals !! slot = Some phase ->
         phase = 0 \/
         exists j block off,
           blocks !! j = Some block /\ offs !! j = Some off /\
           (off <= length st.1 + slot < off + length block)%nat).
Proof.
  induction blocks as [| block blocks IH];
    intros bidx offs st st' H Hoffs Hcount Hlayout Hcursor; simpl in H.
  - injection H as <-. destruct offs; [| discriminate]. simpl in Hcursor.
    exists [], []. rewrite !app_nil_r. repeat split; [exact Hcursor | |];
      intros; discriminate.
  - destruct offs as [| off offs]; [discriminate |]. simpl in Hcursor.
    apply rbind_ok in H as (st1 & Hkeys & H).
    apply rbind_ok in H as (st2 & Hfill & H).
    destruct (block_keys_shape _ _ _ _ _ _ _ _ _ Hkeys)
      as (kv & kw & E1 & E2 & Hkvlen & Hkv).
    rewrite (block_filler_spec _ _ _ _ blocks off offs st1 Hoffs Hcount Hlayout)
      in Hfill.
    injection Hfill as <-.
    apply layout_from_cons in Hlayout as [Hle Hrest].
    set (pad := replicate _ 0) in *.
    destruct (IH (S bidx) offs _ _ H) as (vals & ws & F1 & F2 & Hsize & Hblocks & Hslots).
    { intros j. specialize (Hoffs (S j)). simpl in Hoffs.
      rewrite Hoffs. f_equal. lia. }
    { simpl in Hcount. lia. }
    { exact Hrest. }
    { simpl. rewrite E1, !length_app. unfold pad. rewrite length_replicate. lia. }
    simpl in F1, F2.
    exists (kv ++ pad ++ vals), (kw ++ ws).
    rewrite F1, F2, E1, E2, <- !app_assoc.
    split; [reflexivity |]. split; [reflexivity |].
    split; [rewrite <- Hsize, F1, E1, <- !app_assoc; reflexivity |].
    split.
    + intros [| j] block' k code off' Hblock Hcode Hoff; simpl in Hblock, Hoff.
      * injection Hblock as <-. injection Hoff as <-.
        destruct (Hkv k code Hcode) as (val & Hval & Hentry).
        exists val. split.
        -- rewrite lookup_app_r by lia.
           replace (off + k - length st.1)%nat with k by lia.
           apply lookup_app_l_Some. exact Hval.
        -- rewrite Nat.add_0_r.
           apply (key_entry_log _ _ _ _ _ _ _ _ [] ws) in Hentry. exact Hentry.
      * destruct (Hblocks j block' k code off' Hblock Hcode Hoff)
          as (val & Hval & Hentry).
        exists val. split.
        -- rewrite F1, E1, <- !app_assoc in Hval. exact Hval.
        -- replace (bidx + S j)%nat with (S bidx + j)%nat by lia.
           apply (key_entry_log _ _ _ _ _ _ _ _ kw []) in Hentry.
           rewrite app_nil_r in Hentry. exact Hentry.
    + intros slot phase Hslot.
      apply lookup_app_Some in Hslot as [Hslot | [Hge Hslot]].
      { right. exists 0%nat, block, off. apply lookup_lt_Some in Hslot.
        repeat split; simpl; lia. }
      apply lookup_app_Some in Hslot as [Hslot | [Hge' Hslot]].
      { left. unfold pad in Hslot. apply lookup_replicate in Hslot as [-> _].
        reflexivity. }
      destruct (Hslots _ _ Hslot) as [-> | (j & block' & off' & Hb & Ho & Hr)];
        [left; reflexivity |].
      right. exists (S j), block', off'. simpl.
      split; [exact Hb |]. split; [exact Ho |].
      simpl in Hr. rewrite E1, !length_app in Hr. lia.
Qed.

Lemma key_phase_ok b bounds freqX freqY pos :
  coord b (x1 bounds - x0 bounds) <> 0 ->
  exists val, key_phase b bounds freqX freqY pos = inr val.
Proof.
  intros Hw. unfold key_phase, normalize_x, normalize_y.
  destruct (_ && _); [eauto |].
  destruct (Z.eqb_spec (coord b (x1 bounds - x0 bounds)) 0); [contradiction |].
  simpl. eauto.
Qed.

Lemma block_keys_ok b manager freqX freqY bidx codes :
  coord b (x1 (keyDB_bounds manager) - x0 (keyDB_bounds manager)) <> 0 ->
  forall kidx st, exists st', block_keys b manager freqX freqY bidx kidx codes st = inr st'.
Proof.
  intros Hw. induction codes as [| code codes IH]; intros kidx st; simpl.
  - eauto.
  - destruct (keyDB_find manager (bidx, kidx)) as [key |].
    + destruct (key_phase_ok b (keyDB_bounds manager) freqX freqY (position key) Hw)
        as (val & ->). simpl. apply IH.
    + simpl. apply IH.
Qed.

Lemma all_blocks_ok b manager buffer freqX freqY blocks :
  coord b (x1 (keyDB_bounds manager) - x0 (keyDB_bounds manager)) <> 0 ->
  forall bidx offs st,
    (forall j, offs !! j = rt_blocks buffer !! (bidx + j)%nat) ->
    length (device_blocks manager) = (bidx + length blocks)%nat ->
    layout_from (length (rt_colors buffer)) offs blocks = true ->
    exists st', all_blocks b manager buffer freqX freqY bidx blocks st = inr st'.
Proof.
  intros Hw. induction blocks as [| block blocks IH];
    intros bidx offs st Hoffs Hcount Hlayout; simpl.
  - eauto.
  - destruct offs as [| off offs]; [discriminate |].
    destruct (block_keys_ok b manager freqX freqY bidx block Hw 0%nat st)
      as (st1 & ->). simpl.
    rewrite (block_filler_spec _ _ _ _ blocks off offs st1 Hoffs Hcount Hlayout).
    simpl. apply layout_from_cons in Hlayout as [_ Hrest].
    apply (IH (S bidx) offs).
    + intros j. specialize (Hoffs (S j)). simpl in Hoffs.
      rewrite Hoffs. f_equal. lia.
    + simpl in Hcount. lia.
    + exact Hrest.
Qed.

(** C8: in whole-buffer mode, on the render target of the device (block
    0 at slot 0, blocks in order, none past the end), [computePhases]
    succeeds whenever the two frequencies fit an [int] and the bounding
    box has a width; and whenever it succeeds the phase table has as many
    entries as the buffer has slots, the entry at the slot of every
    addressed key being the phase of that key, or 0 with a warning in the
    log when the key is missing from the database, and every entry at a
    slot of no addressed key being 0. *)
Theorem whole_buffer_phase_table b fs fc manager s :
  keys (m_keys s) = [] ->
  layout_ok manager (m_buffer s) = true ->
  (forall freqX freqY,
     to_int32 (F32.mul (frequency (m_length s)) (fs (angle (m_direction s))))
     = inr freqX ->
     to_int32 (F32.mul (frequency (m_length s)) (fc (angle (m_direction s))))
     = inr freqY ->
     coord b (x1 (keyDB_bounds manager) - x0 (keyDB_bounds manager)) <> 0 ->
     exists s' log, computePhases b fs fc manager s = inr (s', log)) /\
  (forall s' log,
     computePhases b fs fc manager s = inr (s', log) ->
     m_buffer s' = m_buffer s /\
     length (m_phases s') = length (rt_colors (m_buffer s)) /\
     exists freqX freqY,
       (forall bidx block kidx code off,
          device_blocks manager !! bidx = Some block ->
          block !! kidx = Some code ->
          rt_blocks (m_buffer s) !! bidx = Some off ->
          exists val,
            m_phases s' !! (off + kidx)%nat = Some val /\
            key_entry b manager freqX freqY (bidx, kidx) code val log) /\
       (forall slot phase,
          m_phases s' !! slot = Some phase ->
          phase = 0 \/
          exists bidx block off,
            device_blocks manager !! bidx = Some block /\
            rt_blocks (m_buffer s) !! bidx = Some off /\
            (off <= slot < off + length block)%nat)).
Proof.
  intros Hmode Hlayout. unfold layout_ok in Hlayout.
  apply andb_prop in Hlayout as [Hfirst Hlayout]. apply Nat.eqb_eq in Hfirst.
  split.
  - intros freqX freqY HX HY Hw. unfold computePhases.
    rewrite HX, HY, Hmode. simpl.
    destruct (all_blocks_ok b manager (m_buffer s) freqX freqY
                (device_blocks manager) Hw 0%nat (rt_blocks (m_buffer s)) ([], []))
      as (st' & ->); [reflexivity | reflexivity | exact Hlayout |].
    simpl. eauto.
  - intros s' log H. unfold computePhases in H.
    apply rbind_ok in H as (freqX & _ & H).
    apply rbind_ok in H as (freqY & _ & H).
    apply rbind_ok in H as (st' & Hall & H).
    injection H as <- <-. rewrite Hmode in Hall.
    destruct (all_blocks_shape _ _ _ _ _ _ _ (rt_blocks (m_buffer s)) _ _ Hall)
      as (vals & ws & E1 & E2 & Hsize & Hkeys & Hslots);
      [reflexivity | reflexivity | exact Hlayout | simpl; symmetry; exact Hfirst |].
    simpl in E1, E2. subst vals ws.
    split; [reflexivity |]. split; [exact Hsize |].
    exists freqX, freqY. split.
    + intros bidx block kidx code off Hblock Hcode Hoff.
      apply (Hkeys bidx block kidx code off Hblock Hcode Hoff).
    + intros slot phase Hslot. simpl in Hslot.
      destruct (Hslots slot phase Hslot) as [-> | (j & block & off & Hb & Ho & Hr)];
        [left; reflexivity |].
      right. exists j, block, off. simpl in Hr. auto.
Qed.

Lemma whole_buffer_phase_table_witness :
  exists s' log,
    computePhases false sin_at_zero cos_at_zero sample_device
      (sample_plugin no_group) = inr (s', log) /\
    length (m_phases s') = 16%nat /\
    m_phases s' !! 10%nat = Some 0 /\
    MissingKey 1 2 8 ∈ log.
Proof.
  destruct (whole_buffer_phase_table false sin_at_zero cos_at_zero sample_device
              (sample_plugin no_group) eq_refl eq_refl) as [Hrun Hshape].
  destruct (Hrun 0 1024) as (s' & log & Hs');
    [reflexivity | reflexivity | vm_compute; discriminate |].
  exists s', log. split; [exact Hs' |].
  destruct (Hshape s' log Hs') as (_ & Hlen & freqX & freqY & Hkeys & _).
  split; [exact Hlen |].
  destruct (Hkeys 1%nat [6; 7; 8; 9; 10; 11] 2%nat 8 8%nat eq_refl eq_refl eq_refl)
    as (val & Hval & Hentry).
  unfold key_entry in Hentry. simpl in Hentry. destruct Hentry as [-> Hin].
  split; [exact Hval | exact Hin].
Defined.

(** * Further properties of the sampler *)

Lemma advance_zero time period :
  0 <= time < period -> period < 2 ^ 32 -> advance time period 0 = time.
Proof.
  intros Ht Hp. unfold advance. rewrite Z.add_0_r, u32_u64, u32_small by lia.
  destruct (Z.leb_spec period time); [lia | reflexivity].
Qed.

(** X4: Idempotence: a frame of delta 0 leaves the accumulator where it was,
    and a second one changes nothing at all. *)
Theorem render_zero_idempotent s :
  tables_built s -> buffer_compatible s ->
  0 <= m_time s < m_period s -> m_period s < 2 ^ 32 ->
  exists s1,
    render 0 s = inr s1 /\ m_time s1 = m_time s /\ render 0 s1 = inr s1.
Proof.
  intros Hbuilt Hcompat Htime Hp.
  pose proof (advance_zero _ _ Htime Hp) as Eadv.
  destruct (global_phase_range _ _ Htime) as (t & Hg & Ht & _).
  assert (H1 : render 0 s = inr (frame_of s (m_time s) t)).
  { rewrite <- Eadv at 1. apply render_ok; rewrite ?Eadv; assumption. }
  exists (frame_of s (m_time s) t).
  split; [exact H1 |]. split; [reflexivity |].
  set (s1 := frame_of s (m_time s) t).
  assert (E1 : advance (m_time s1) (m_period s1) 0 = m_time s)
    by (subst s1; simpl; exact Eadv).
  assert (H2 : render 0 s1
               = inr (frame_of s1 (advance (m_time s1) (m_period s1) 0) t)).
  { apply render_ok.
    - apply frame_of_built, Hbuilt.
    - apply frame_of_compatible, Hcompat.
    - exact Ht.
    - rewrite E1. subst s1. simpl. exact Hg. }
  rewrite H2, E1. subst s1. rewrite frame_of_frame_of. reflexivity.
Qed.

Lemma render_zero_idempotent_witness :
  exists s1,
    render 0 (group_plugin 900) = inr s1 /\ m_time s1 = 900 /\
    render 0 s1 = inr s1.
Proof.
  apply (render_zero_idempotent (group_plugin 900)).
  - split; [repeat constructor; unfold accuracy; lia | reflexivity].
  - split; [reflexivity |].
    repeat constructor; simpl; eauto; unfold key_slot; simpl; lia.
  - simpl. lia.
  - simpl. lia.
Defined.

Lemma total_nonneg deltas : Forall (fun d => 0 <= d) deltas -> 0 <= total deltas.
Proof.
  unfold total. induction 1 as [| d deltas Hd _ IH]; simpl; lia.
Qed.

(** X5: How the elapsed time is cut into frames does not matter: as long as
    the deltas add up to at most one period, the frames leave the plugin
    that one frame of the whole elapsed time leaves. *)
Theorem render_all_is_one_render s d deltas :
  tables_built s -> buffer_compatible s ->
  0 <= m_time s < m_period s -> m_period s <= 2 ^ 31 ->
  Forall (fun d => 0 <= d) (d :: deltas) ->
  total (d :: deltas) <= m_period s ->
  exists s',
    render_all (d :: deltas) s = inr s' /\
    render (total (d :: deltas)) s = inr s'.
Proof.
  intros Hbuilt Hcompat Htime Hperiod Hds Htotal.
  assert (Hp : 2 * m_period s <= 2 ^ 32) by lia.
  assert (Hbound : Forall (fun d => 0 <= d <= m_period s) (d :: deltas)).
  { clear Htime Hperiod Hp. revert Htotal.
    generalize (m_period s). generalize (d :: deltas) Hds. clear.
    induction 1 as [| d0 ds Hd Hds IH]; intros p Htotal; constructor.
    - pose proof (total_nonneg ds Hds).
      change (total (d0 :: ds)) with (d0 + total ds) in Htotal. lia.
    - pose proof (total_nonneg ds Hds).
      change (total (d0 :: ds)) with (d0 + total ds) in Htotal.
      apply IH. lia. }
  destruct (render_all_frames deltas d s Hbuilt Hcompat Htime Hp Hbound)
    as (t & Hg & Hr).
  pose proof (total_nonneg _ Hds) as Hnn.
  destruct (render_step s (total (d :: deltas)) Hbuilt Hcompat Htime
              ltac:(lia) Hp) as (t' & _ & Hg' & Hr').
  assert (t' = t) by congruence. subst t'.
  eexists. split; [exact Hr | exact Hr'].
Qed.

Lemma render_all_is_one_render_witness :
  exists s',
    render_all [50; 0; 25] (group_plugin 900) = inr s' /\
    render 75 (group_plugin 900) = inr s'.
Proof.
  apply (render_all_is_one_render (group_plugin 900) 50 [0; 25]).
  - split; [repeat constructor; unfold accuracy; lia | reflexivity].
  - split; [reflexivity |].
    repeat constructor; simpl; eauto; unfold key_slot; simpl; lia.
  - simpl. lia.
  - simpl. lia.
  - repeat constructor; lia.
  - vm_compute. discriminate.
Defined.

(** X6: Whatever [render] is given, a successful call changes nothing but
    the accumulator and the colors of the buffer: the key set, both
    tables, the three parameters, the block offsets and the size of the
    buffer are as before; in group mode a slot that no key of the group
    designates keeps its color, and in whole-buffer mode every slot is
    overwritten, so that the buffer no longer depends on what it held. *)
Theorem render_frame_footprint ms s s' :
  render ms s = inr s' ->
  m_keys s' = m_keys s /\ m_phases s' = m_phases s /\ m_colors s' = m_colors s /\
  m_period s' = m_period s /\ m_length s' = m_length s /\
  m_direction s' = m_direction s /\
  rt_blocks (m_buffer s') = rt_blocks (m_buffer s) /\
  length (rt_colors (m_buffer s')) = length (rt_colors (m_buffer s)) /\
  (forall slot,
     keys (m_keys s) <> [] ->
     Forall (fun key => key_slot (rt_blocks (m_buffer s)) key <> slot)
            (keys (m_keys s)) ->
     rt_colors (m_buffer s') !! slot = rt_colors (m_buffer s) !! slot) /\
  (forall cells s2,
     keys (m_keys s) = [] ->
     length cells = length (rt_colors (m_buffer s)) ->
     render ms (set_frame s (m_time s) (mkRenderTarget cells (rt_blocks (m_buffer s))))
     = inr s2 ->
     s2 = s').
Proof.
  intros H. apply render_inv in H as (t & Hg & ->).
  unfold frame_of, set_frame. cbn [m_keys m_phases m_colors m_period m_length
                                   m_direction m_buffer rt_blocks rt_colors].
  repeat (split; [reflexivity |]).
  split; [apply paint_frame_length |]. split.
  - intros slot Hmode Hslot. unfold paint_frame.
    destruct (keys (m_keys s)) as [| key group] eqn:Hkeys; [contradiction |].
    apply (paint_keys_untouched _ _ _ _ (key :: group) slot Hslot).
  - intros cells s2 Hmode Hlen H2. apply render_inv in H2 as (t2 & Hg2 & ->).
    cbn [set_frame m_time m_period] in Hg2.
    assert (t2 = t) by congruence. subst t2.
    unfold frame_of, set_frame, paint_frame.
    cbn [m_keys m_phases m_colors m_period m_length m_direction m_buffer
         m_time rt_blocks rt_colors].
    rewrite Hmode, Hlen. reflexivity.
Qed.

Lemma render_frame_footprint_witness :
  exists s',
    render 300 (group_plugin 900) = inr s' /\
    m_phases s' = [100; 200] /\
    rt_colors (m_buffer s') !! 5%nat = Some (gray 9).
Proof.
  assert (Hrun : exists s', render 300 (group_plugin 900) = inr s')
    by (eexists; vm_compute; reflexivity).
  destruct Hrun as (s' & E).
  exists s'. split; [exact E |].
  destruct (render_frame_footprint 300 (group_plugin 900) s' E)
    as (_ & Hph & _ & _ & _ & _ & _ & _ & Hslot & _).
  split; [exact Hph |].
  rewrite (Hslot 5%nat); [reflexivity | discriminate |].
  repeat constructor; vm_compute; lia.
Defined.

(** X7: The accumulator stays in [0, period) from frame to frame, for every
    period an [unsigned] holds, also where the sum of line 89 wraps. *)
Theorem render_keeps_time_below_period ms s s' :
  render ms s = inr s' ->
  0 <= m_time s < m_period s -> m_period s < 2 ^ 32 -> 0 <= ms <= m_period s ->
  0 <= m_time s' < m_period s' /\ m_period s' = m_period s.
Proof.
  intros H Htime Hp Hms. apply render_inv in H as (t & _ & ->).
  simpl. split; [apply advance_range; assumption | reflexivity].
Qed.

Lemma render_keeps_time_below_period_witness :
  exists s',
    render 3000000000 (plugin_at 2000000000 3000000000) = inr s' /\
    0 <= m_time s' < 3000000000.
Proof.
  assert (Hrun : exists s',
             render 3000000000 (plugin_at 2000000000 3000000000) = inr s')
    by (eexists; vm_compute; reflexivity).
  destruct Hrun as (s' & E).
  exists s'. split; [exact E |].
  destruct (render_keeps_time_below_period _ _ _ E) as [Hr Ep];
    [simpl; lia | simpl; lia | simpl; lia |].
  rewrite Ep in Hr. exact Hr.
Defined.

Lemma stoul_period_of_setup b fs fc parse manager conf groups s log :
  WavePlugin_new b fs fc parse manager conf groups = inr (s, log) ->
  exists p, stoul (conf_at conf "period") = inr p /\
            m_period s = override default_period p /\
            m_time s = 0.
Proof.
  unfold WavePlugin_new. intros H.
  apply rbind_ok in H as (p & Hp & H).
  bind_inv H. bind_inv H. bind_inv H. bind_inv H. bind_inv H.
  destruct a3 as [s1 log1]. injection H as <- <-.
  apply computePhases_scalars in Ha3 as (Ep & _ & _ & _ & Et & _).
  exists p. split; [exact Hp |]. simpl in *. auto.
Qed.

(** X8: A period that is a multiple of 2^32 other than 0 passes the test of
    line 56 as an [unsigned long] and is stored as 0 in the [unsigned]
    member: setup succeeds, and every frame then divides by zero on line
    92. *)
Theorem period_multiple_of_2_32_divides_by_zero
    b fs fc parse manager conf groups s log p :
  WavePlugin_new b fs fc parse manager conf groups = inr (s, log) ->
  stoul (conf_at conf "period") = inr p ->
  p <> 0 -> p mod 2 ^ 32 = 0 ->
  m_period s = 0 /\ forall ms, render ms s = inl DivisionByZero.
Proof.
  intros Hnew Hp Hne Hmod.
  destruct (stoul_period_of_setup _ _ _ _ _ _ _ _ _ Hnew) as (p' & Hp' & Eper & _).
  assert (p' = p) by congruence. subst p'.
  pose proof (stoul_range _ _ Hp) as Hr.
  assert (E0 : m_period s = 0).
  { rewrite Eper. unfold override, u32.
    destruct (Z.ltb_spec 0 p); [exact Hmod | lia]. }
  split; [exact E0 |].
  intros ms. unfold render, global_phase. rewrite E0. reflexivity.
Qed.

Lemma period_multiple_of_2_32_divides_by_zero_witness :
  exists s log,
    WavePlugin_new false sin_at_zero cos_at_zero parse_named sample_device
      (sample_conf "4294967296" EmptyString) [] = inr (s, log) /\
    m_period s = 0 /\ render 16 s = inl DivisionByZero.
Proof.
  assert (Hrun : exists r,
             WavePlugin_new false sin_at_zero cos_at_zero parse_named
               sample_device (sample_conf "4294967296" EmptyString) [] = inr r)
    by (eexists; vm_compute; reflexivity).
  destruct Hrun as ([s log] & E).
  exists s, log. split; [exact E |].
  destruct (period_multiple_of_2_32_divides_by_zero _ _ _ _ _ _ _ _ _ 4294967296 E)
    as [E0 Hdiv]; [reflexivity | discriminate | reflexivity |].
  split; [exact E0 | apply Hdiv].
Defined.

(** *** A delta beyond the precondition *)








(** * Further properties of the gradient table builder *)

Lemma fill_slot_spec first last colorA colorB idx table table' :
  fill_slot first last colorA colorB idx table = inr table' ->
  exists c,
    blend_colors colorA colorB (slot_ratio first last idx) = inr c /\
    (idx < length table)%nat /\ table' = <[idx := c]> table.
Proof.
  unfold fill_slot, blend_colors, slot_ratio. intros H.
  apply rbind_ok in H as (r & -> & H). apply rbind_ok in H as (g & -> & H).
  apply rbind_ok in H as (bl & -> & H). apply rbind_ok in H as (a & -> & H).
  destruct (decide _); [| discriminate]. injection H as <-.
  exists (mkRGBA r g bl a). simpl. auto.
Qed.

(** One range fills its own slots and no other. *)
Lemma fill_range_spec colors range table table' :
  fill_range colors range table = inr table' ->
  let count := length colors in
  let first := (range * length table / count)%nat in
  let last := ((range + 1) * length table / count)%nat in
  length table' = length table /\
  (forall idx, ~ (first <= idx < last)%nat -> table' !! idx = table !! idx) /\
  (forall idx colorA colorB,
     (first <= idx < last)%nat ->
     colors !! range = Some colorA ->
     colors !! closing_stop count range = Some colorB ->
     exists c, table' !! idx = Some c /\
               blend_colors colorA colorB (slot_ratio first last idx) = inr c).
Proof.
  intros H count first last. unfold fill_range in H. unfold closing_stop.
  fold count first last in H.
  destruct (colors !! range) as [colorA |] eqn:EA; [| discriminate].
  destruct (colors !! (if decide (count <= range + 1)%nat
                       then 0 else range + 1)%nat) as [colorB |] eqn:EB;
    [| discriminate].
  pose (P := fun (i : nat) (tbl : list RGBAColor) =>
               length tbl = length table /\
               (forall idx, (idx < first \/ i <= idx)%nat -> tbl !! idx = table !! idx) /\
               (forall idx, (first <= idx < i)%nat ->
                  exists c, tbl !! idx = Some c /\
                            blend_colors colorA colorB (slot_ratio first last idx) = inr c)).
  assert (HP : P (first + (last - first))%nat table').
  { apply (for_loop_inv P _ _ _ _ _ H).
    - split; [reflexivity |]. split; [reflexivity |]. intros idx Hidx. lia.
    - intros i tbl tbl' Hi (Hlen & Hout & Hin) Hbody.
      apply fill_slot_spec in Hbody as (c & Hc & Hlt & ->).
      split; [rewrite length_insert; exact Hlen |]. split.
      + intros idx Hidx. rewrite list_lookup_insert_ne by lia.
        apply Hout. lia.
      + intros idx Hidx. destruct (decide (idx = i)) as [-> | Hne].
        * exists c. split; [apply list_lookup_insert_eq; exact Hlt | exact Hc].
        * rewrite list_lookup_insert_ne by lia. apply Hin. lia. }
  destruct HP as (Hlen & Hout & Hin).
  split; [exact Hlen |]. split.
  - intros idx Hidx. apply Hout. lia.
  - intros idx cA cB Hidx [= <-] [= <-]. apply Hin. lia.
Qed.

Lemma range_bounds_ordered count range range' :
  (range < range')%nat -> (range_last count range <= range_first count range')%nat.
Proof.
  intros Hlt. unfold range_last, range_first.
  destruct count as [| count]; [simpl; lia |].
  apply Nat.Div0.div_le_mono. nia.
Qed.

Lemma range_nonempty count range :
  (0 < count <= table_size)%nat ->
  (range_first count range < range_last count range)%nat.
Proof.
  intros Hc. unfold range_last, range_first.
  assert (H : (range * table_size / count + 1
               <= (range + 1) * table_size / count)%nat).
  { rewrite <- (Nat.div_add _ 1 count) by lia.
    apply Nat.Div0.div_le_mono. lia. }
  lia.
Qed.

Lemma generateColorTable_ranges colors table :
  generateColorTable colors = inr table ->
  length table = table_size /\
  forall range idx colorA colorB,
    (range_first (length colors) range <= idx < range_last (length colors) range)%nat ->
    colors !! range = Some colorA ->
    colors !! closing_stop (length colors) range = Some colorB ->
    exists c,
      table !! idx = Some c /\
      blend_colors colorA colorB
        (slot_ratio (range_first (length colors) range)
                    (range_last (length colors) range) idx) = inr c.
Proof.
  unfold generateColorTable. intros H.
  set (count := length colors) in *.
  pose (P := fun (r : nat) (tbl : list RGBAColor) =>
               length tbl = table_size /\
               forall range idx colorA colorB,
                 (range < r)%nat ->
                 (range_first count range <= idx < range_last count range)%nat ->
                 colors !! range = Some colorA ->
                 colors !! closing_stop count range = Some colorB ->
                 exists c,
                   tbl !! idx = Some c /\
                   blend_colors colorA colorB
                     (slot_ratio (range_first count range)
                                 (range_last count range) idx) = inr c).
  assert (HP : P (0 + count)%nat table).
  { apply (for_loop_inv P _ _ _ _ _ H).
    - split; [apply length_replicate |]. intros; lia.
    - intros r tbl tbl' Hr (Hlen & Hdone) Hbody.
      apply fill_range_spec in Hbody as (Hlen' & Hout & Hin).
      rewrite Hlen in Hlen', Hout, Hin. fold count in Hout, Hin.
      change (r * table_size / count)%nat with (range_first count r) in Hout, Hin.
      change ((r + 1) * table_size / count)%nat with (range_last count r) in Hout, Hin.
      split; [exact Hlen' |].
      intros range idx colorA colorB Hrange Hidx HA HB.
      destruct (decide (range = r)) as [-> | Hne].
      + apply Hin; assumption.
      + rewrite Hout.
        * apply Hdone; [lia | assumption..].
        * pose proof (range_bounds_ordered count range r ltac:(lia)). lia. }
  destruct HP as (Hlen & Hdone). split; [exact Hlen |].
  intros range idx colorA colorB Hidx HA HB.
  apply Hdone; try assumption.
  apply lookup_lt_Some in HA. fold count in HA. lia.
Qed.

(** X1: Whatever the gradient, a table that is returned has exactly 1024
    entries; an empty gradient leaves the table at its initial value,
    1024 times {0,0,0,0}. *)
Theorem color_table_size :
  (forall colors table,
     generateColorTable colors = inr table -> length table = table_size) /\
  generateColorTable [] = inr (replicate table_size (mkRGBA 0 0 0 0)).
Proof.
  split; [| reflexivity].
  intros colors table H. apply (generateColorTable_ranges _ _ H).
Qed.

Lemma color_table_size_witness :
  exists table,
    generateColorTable [gray 0; gray 255; mkRGBA 255 0 0 255] = inr table /\
    length table = table_size.
Proof.
  assert (Hrun : exists table,
             generateColorTable [gray 0; gray 255; mkRGBA 255 0 0 255] = inr table)
    by (eexists; vm_compute; reflexivity).
  destruct Hrun as (table & E).
  exists table. split; [exact E |].
  exact (proj1 color_table_size _ _ E).
Defined.

(** X2: The table is the piecewise interpolation of the gradient, closed
    into a cycle: range [r] of a gradient of [n] stops covers the slots
    from [r * 1024 / n] to [(r + 1) * 1024 / n], and each of its slots
    holds the blend of stop [r] and of the stop after it (stop 0 after
    the last one) at the ratio of line 185; no range writes a slot of
    another. *)
Theorem color_table_piecewise colors table range idx colorA colorB :
  generateColorTable colors = inr table ->
  (range_first (length colors) range <= idx < range_last (length colors) range)%nat ->
  colors !! range = Some colorA ->
  colors !! (if decide (length colors <= range + 1)%nat then 0 else range + 1)%nat
  = Some colorB ->
  exists c,
    table !! idx = Some c /\
    blend_colors colorA colorB
      (F32.div (F32.of_Z (Z.of_nat (idx - range_first (length colors) range)))
               (F32.of_Z (Z.of_nat (range_last (length colors) range
                                    - range_first (length colors) range)))) = inr c.
Proof.
  intros H Hidx HA HB.
  apply (proj2 (generateColorTable_ranges _ _ H) range idx colorA colorB Hidx HA HB).
Qed.

Lemma color_table_piecewise_witness :
  exists table c,
    generateColorTable [gray 0; gray 255; mkRGBA 255 0 0 255] = inr table /\
    table !! 1000%nat = Some c /\
    blend_colors (mkRGBA 255 0 0 255) (gray 0)
      (F32.div (F32.of_Z 318) (F32.of_Z 342)) = inr c.
Proof.
  assert (Hrun : exists table,
             generateColorTable [gray 0; gray 255; mkRGBA 255 0 0 255] = inr table)
    by (eexists; vm_compute; reflexivity).
  destruct Hrun as (table & E).
  destruct (color_table_piecewise _ table 2%nat 1000%nat
              (mkRGBA 255 0 0 255) (gray 0) E) as (c & Hc & Hb).
  - vm_compute. lia.
  - reflexivity.
  - reflexivity.
  - exists table, c. split; [exact E |]. split; [exact Hc | exact Hb].
Defined.

(** *** Stops appear verbatim *)

Lemma unit_ratio_checked : unit_ratio_check = true.
Proof. vm_compute. reflexivity. Qed.

Lemma closing_share_checked : closing_share_check = true.
Proof. vm_compute. reflexivity. Qed.

Lemma opening_share_checked : opening_share_check = true.
Proof. vm_compute. reflexivity. Qed.

Lemma slot_ratio_first first last :
  (first < last <= first + 1024)%nat ->
  slot_ratio first last first = S754_zero false.
Proof.
  intros H. unfold slot_ratio. rewrite Nat.sub_diag.
  change (Z.of_nat 0) with 0.
  pose proof unit_ratio_checked as Hc. unfold unit_ratio_check in Hc.
  rewrite forallb_forall in Hc.
  specialize (Hc (last - first)%nat ltac:(apply in_seq; lia)).
  destruct (F32.div (F32.of_Z 0) (F32.of_Z (Z.of_nat (last - first))))
    as [[|] | | |]; try discriminate. reflexivity.
Qed.

Lemma blend_channel_at_zero a b :
  0 <= a <= 255 -> 0 <= b <= 255 ->
  blend_channel a b (S754_zero false) = inr a.
Proof.
  intros Ha Hb. unfold blend_channel.
  pose proof closing_share_checked as Hclose. unfold closing_share_check in Hclose.
  rewrite forallb_forall in Hclose.
  specialize (Hclose (Z.to_nat b) ltac:(apply in_seq; lia)).
  rewrite Z2Nat.id in Hclose by lia.
  destruct (F32.mul (F32.of_Z b) (S754_zero false)) as [[|] | | |];
    try discriminate.
  pose proof opening_share_checked as Hopen. unfold opening_share_check in Hopen.
  rewrite forallb_forall in Hopen.
  specialize (Hopen (Z.to_nat a) ltac:(apply in_seq; lia)).
  rewrite Z2Nat.id in Hopen by lia.
  destruct (F32.to_int 0 255 _) as [f | v]; [discriminate |].
  apply Z.eqb_eq in Hopen. congruence.
Qed.

(** X3: Every stop of a gradient of at most 1024 stops is in the table as it
    was given: stop [r] of [n] sits at slot [r * 1024 / n], where the
    ratio is 0. *)
Theorem color_table_holds_stops colors table range c :
  Forall channels_ok colors ->
  (length colors <= table_size)%nat ->
  generateColorTable colors = inr table ->
  colors !! range = Some c ->
  table !! (range * table_size / length colors)%nat = Some c.
Proof.
  intros Hok Hcount H Hc.
  pose proof (lookup_lt_Some _ _ _ Hc) as Hrange.
  assert (Hne : (0 < length colors <= table_size)%nat) by lia.
  pose proof (range_nonempty (length colors) range Hne) as Hlt.
  assert (HB : is_Some (colors !! closing_stop (length colors) range)).
  { apply lookup_lt_is_Some. unfold closing_stop. destruct (decide _); lia. }
  destruct HB as [colorB HB].
  destruct (proj2 (generateColorTable_ranges _ _ H) range
              (range_first (length colors) range) c colorB) as (c' & Hc' & Hb);
    [lia | exact Hc | exact HB |].
  change (range * table_size / length colors)%nat
    with (range_first (length colors) range).
  rewrite Hc'. f_equal.
  rewrite slot_ratio_first in Hb.
  - pose proof (proj1 (Forall_lookup _ _) Hok _ _ Hc) as (Hr & Hg & Hbl & Ha).
    pose proof (proj1 (Forall_lookup _ _) Hok _ _ HB) as (Hr' & Hg' & Hbl' & Ha').
    unfold blend_colors in Hb.
    rewrite !blend_channel_at_zero in Hb by assumption.
    simpl in Hb. injection Hb as <-. destruct c. reflexivity.
  - split; [exact Hlt |].
    assert (range_last (length colors) range <= table_size)%nat.
    { unfold range_last. apply Nat.Div0.div_le_upper_bound. nia. }
    change table_size with 1024%nat in *. lia.
Qed.

Lemma color_table_holds_stops_witness :
  exists table,
    generateColorTable [gray 0; gray 255; mkRGBA 255 0 0 255] = inr table /\
    table !! 682%nat = Some (mkRGBA 255 0 0 255).
Proof.
  assert (Hrun : exists table,
             generateColorTable [gray 0; gray 255; mkRGBA 255 0 0 255] = inr table)
    by (eexists; vm_compute; reflexivity).
  destruct Hrun as (table & E).
  exists table. split; [exact E |].
  apply (color_table_holds_stops [gray 0; gray 255; mkRGBA 255 0 0 255] table 2%nat).
  - repeat constructor; simpl; lia.
  - vm_compute. lia.
  - exact E.
  - reflexivity.
Defined.

(** * Further properties of the mapper *)

Lemma group_keys_shape b manager freqX freqY group :
  forall st st',
    group_keys b manager freqX freqY group st = inr st' ->
    st'.2 = st.2 /\
    exists vals,
      st'.1 = st.1 ++ vals /\
      Forall2 (fun key val =>
                 key_phase b (keyDB_bounds manager) freqX freqY (position key)
                 = inr val) group vals.
Proof.
  unfold group_keys.
  induction group as [| key group IH]; intros st st' H; simpl in H.
  - injection H as <-. split; [reflexivity |]. exists [].
    rewrite app_nil_r. split; [reflexivity | constructor].
  - apply rbind_ok in H as (st1 & H1 & H).
    apply rbind_ok in H1 as (val & Hval & H1). injection H1 as <-.
    destruct (IH _ _ H) as (Hlog & vals & Evals & Hall). simpl in *.
    split; [exact Hlog |]. exists (val :: vals).
    rewrite Evals, <- app_assoc. split; [reflexivity |].
    constructor; assumption.
Qed.




(** *** Direction 0 *)

Lemma angle_zero : angle 0 = S754_zero false.
Proof. vm_compute. reflexivity. Qed.

Lemma to_int32_mul_zero f val :
  to_int32 (F32.mul f (S754_zero false)) = inr val -> val = 0.
Proof.
  destruct f as [s | s | | s m e]; vm_compute; congruence.
Qed.

Lemma phase_value_freqX_zero freqY x x' y :
  phase_value 0 freqY x y = phase_value 0 freqY x' y.
Proof. unfold phase_value. rewrite !Z.mul_0_l. reflexivity. Qed.

(** X11: With direction 0 the wave travels along Y only: since sin 0 = 0 the
    X frequency is 0, and two keys of a group whose rectangles span the
    same rows get the same phase, wherever they are on the X axis (their
    common Y midpoint not being 0, the value that marks a key without
    position when X is 0 as well). *)
Theorem direction_zero_wave_is_vertical b fs fc manager s s' log i j key key' :
  fs (S754_zero false) = S754_zero false ->
  m_direction s = 0 ->
  keys (m_keys s) <> [] ->
  computePhases b fs fc manager s = inr (s', log) ->
  keys (m_keys s) !! i = Some key ->
  keys (m_keys s) !! j = Some key' ->
  y0 (position key) = y0 (position key') ->
  y1 (position key) = y1 (position key') ->
  midpoint b (y0 (position key)) (y1 (position key)) <> 0 ->
  is_Some (m_phases s' !! i) /\ m_phases s' !! i = m_phases s' !! j.
Proof.
  intros Hsin Hdir Hmode H Hi Hj Ey0 Ey1 Hy.
  unfold computePhases in H.
  apply rbind_ok in H as (freqX & HX & H).
  apply rbind_ok in H as (freqY & HY & H).
  apply rbind_ok in H as (st' & Hgroup & H). injection H as <- <-.
  rewrite Hdir, angle_zero, Hsin in HX.
  apply to_int32_mul_zero in HX. subst freqX.
  destruct (keys (m_keys s)) as [| key0 group] eqn:Hkeys; [contradiction |].
  apply group_keys_shape in Hgroup as (_ & vals & Evals & Hall).
  simpl in Evals. simpl. rewrite Evals.
  destruct (Forall2_lookup_l _ _ _ _ _ Hall Hi) as (val & Hval & Hphase).
  destruct (Forall2_lookup_l _ _ _ _ _ Hall Hj) as (val' & Hval' & Hphase').
  rewrite Hval, Hval'. split; [eauto |]. f_equal.
  unfold key_phase in Hphase, Hphase'. rewrite <- Ey0, <- Ey1 in Hphase'.
  destruct (Z.eqb_spec (midpoint b (y0 (position key)) (y1 (position key))) 0)
    as [E | _]; [contradiction |].
  rewrite andb_false_r in Hphase, Hphase'.
  apply rbind_ok in Hphase as (x & Hx & Hphase).
  apply rbind_ok in Hphase as (y & Hy1 & Hphase).
  apply rbind_ok in Hphase' as (x' & Hx' & Hphase').
  apply rbind_ok in Hphase' as (y' & Hy' & Hphase').
  assert (y' = y) by congruence. subst y'.
  injection Hphase as <-. injection Hphase' as <-.
  rewrite (phase_value_freqX_zero freqY x x' y). reflexivity.
Qed.

Lemma direction_zero_wave_is_vertical_witness :
  exists s' log,
    computePhases false sin_at_zero cos_at_zero sample_device
      (sample_plugin (mkKeyGroup "row"
         [mkKey (0, 1)%nat (mkRect 200 60 220 80);
          mkKey (0, 4)%nat (mkRect 20 60 400 80)])) = inr (s', log) /\
    m_phases s' !! 0%nat = m_phases s' !! 1%nat.
Proof.
  assert (Hrun : exists r,
             computePhases false sin_at_zero cos_at_zero sample_device
               (sample_plugin (mkKeyGroup "row"
                  [mkKey (0, 1)%nat (mkRect 200 60 220 80);
                   mkKey (0, 4)%nat (mkRect 20 60 400 80)])) = inr r)
    by (eexists; vm_compute; reflexivity).
  destruct Hrun as ([s' log] & E).
  exists s', log. split; [exact E |].
  apply (direction_zero_wave_is_vertical false sin_at_zero cos_at_zero
           sample_device
           (sample_plugin (mkKeyGroup "row"
              [mkKey (0, 1)%nat (mkRect 200 60 220 80);
               mkKey (0, 4)%nat (mkRect 20 60 400 80)]))
           s' log 0%nat 1%nat
           (mkKey (0, 1)%nat (mkRect 200 60 220 80))
           (mkKey (0, 4)%nat (mkRect 20 60 400 80)));
    try reflexivity; try exact E; discriminate.
Defined.

(** * Further properties of the constructor *)

Lemma load_colors_from (parse : string -> option RGBAColor)
    (entries : list (string * string)) :
  forall acc,
    (forall colors,
       for_each entries
         (fun item colors =>
            if String.prefix "color" item.1
            then match parse item.2 with
                 | Some c => ok (colors ++ [c])
                 | None => throw ColorParseError
                 end
            else ok colors) acc = inr colors <->
       exists stops,
         colors = acc ++ stops /\
         parse <$> (snd <$> List.filter (fun item => String.prefix "color" item.1) entries)
         = Some <$> stops) /\
    (forall f,
       for_each entries
         (fun item colors =>
            if String.prefix "color" item.1
            then match parse item.2 with
                 | Some c => ok (colors ++ [c])
                 | None => throw ColorParseError
                 end
            else ok colors) acc = inl f ->
       f = ColorParseError /\
       exists item, In item entries /\ String.prefix "color" item.1 = true /\
                    parse item.2 = None).
Proof.
  induction entries as [| item entries IH]; intros acc; simpl.
  - split.
    + intros colors. split.
      * intros [= <-]. exists []. rewrite app_nil_r. auto.
      * intros (stops & -> & Hstops). destruct stops; [| discriminate].
        rewrite app_nil_r. reflexivity.
    + intros f. discriminate.
  - destruct (String.prefix "color" item.1) eqn:Hprefix; simpl.
    + destruct (parse item.2) as [c |] eqn:Hparse; simpl.
      * destruct (IH (acc ++ [c])) as [IHok IHfail]. split.
        -- intros colors. rewrite IHok. split.
           ++ intros (stops & -> & Hstops). exists (c :: stops).
              rewrite <- app_assoc. split; [reflexivity |].
              simpl. f_equal. exact Hstops.
           ++ intros (stops & -> & Hstops).
              destruct stops as [| c' stops]; [discriminate |].
              simpl in Hstops. injection Hstops as <- Hstops.
              exists stops. rewrite <- app_assoc.
              split; [reflexivity | exact Hstops].
        -- intros f Hf. destruct (IHfail f Hf) as (-> & item' & Hin & Hp & Hn).
           split; [reflexivity |]. exists item'. auto.
      * split.
        -- intros colors. split; [discriminate |].
           intros (stops & _ & Hstops). destruct stops; discriminate.
        -- intros f [= <-]. split; [reflexivity |]. exists item. auto.
    + destruct (IH acc) as [IHok IHfail]. split; [exact IHok |].
      intros f Hf. destruct (IHfail f Hf) as (-> & item' & Hin & Hp & Hn).
      split; [reflexivity |]. exists item'. auto.
Qed.

(** X12: The gradient is made of the values of exactly the configuration
    items whose key starts with "color", in the order of the items; the
    other items are ignored, and the load fails, with the parser's
    error, exactly when one of those values does not parse. *)
Theorem load_colors_spec (parse : string -> option RGBAColor) conf :
  (forall colors,
     load_colors parse conf = inr colors <->
     parse <$> (snd <$> List.filter (fun item => String.prefix "color" item.1)
                                    (items conf))
     = Some <$> colors) /\
  (forall f,
     load_colors parse conf = inl f <->
     f = ColorParseError /\
     exists item, In item (items conf) /\ String.prefix "color" item.1 = true /\
                  parse item.2 = None).
Proof.
  unfold load_colors.
  destruct (load_colors_from parse (items conf) []) as [Hok Hfail].
  split.
  - intros colors. rewrite Hok. simpl. split.
    + intros (stops & -> & H). exact H.
    + intros H. exists colors. auto.
  - intros f. split; [apply Hfail |].
    intros (-> & item & Hin & Hp & Hn).
    destruct (for_each (items conf) _ []) as [f | colors] eqn:E.
    + destruct (Hfail f eq_refl) as [-> _]. reflexivity.
    + exfalso. destruct (proj1 (Hok colors) eq_refl) as (stops & _ & Hstops).
      assert (Hmem : In (parse item.2)
                        (parse <$> (snd <$> List.filter
                           (fun item => String.prefix "color" item.1) (items conf)))).
      { apply in_map, in_map. apply filter_In. auto. }
      rewrite Hstops, Hn in Hmem. apply in_map_iff in Hmem as (c & Hc & _).
      discriminate.
Qed.

Lemma stoul_fault s f : stoul s = inl f -> f = InvalidArgument \/ f = OutOfRange.
Proof.
  unfold stoul. destruct (split_sign _) as [neg s2].
  destruct (digits s2 None) as [v |]; [| intros [= <-]; auto].
  destruct (2 ^ 64 <=? v); [intros [= <-]; auto | discriminate].
Qed.

Lemma digits_empty_prefix s acc :
  match s with
  | String c _ => digit c = None
  | EmptyString => True
  end -> digits s acc = acc.
Proof. destruct s as [| c s]; simpl; [reflexivity |]. intros ->. reflexivity. Qed.

(** X13: Setup fails, with one of the two exceptions of [std::stoul], as soon
    as one of period, length and direction does not read as a number;
    an empty value, which is also what an absent one reads as when
    [conf[key]] returns an empty string for it, is such a value. *)
Theorem setup_rejects_malformed_scalars b fs fc parse manager conf groups :
  (forall key f0,
     key = "period"%string \/ key = "length"%string \/ key = "direction"%string ->
     stoul (conf_at conf key) = inl f0 ->
     exists f,
       WavePlugin_new b fs fc parse manager conf groups = inl f /\
       (f = InvalidArgument \/ f = OutOfRange)) /\
  stoul EmptyString = inl InvalidArgument.
Proof.
  split; [| reflexivity].
  intros key f0 Hkey Hfail. unfold WavePlugin_new.
  destruct (stoul (conf_at conf "period")) as [fp | p] eqn:Ep.
  { exists fp. split; [reflexivity | eapply stoul_fault, Ep]. }
  destruct (stoul (conf_at conf "length")) as [fl | l] eqn:El.
  { exists fl. split; [reflexivity | eapply stoul_fault, El]. }
  destruct (stoul (conf_at conf "direction")) as [fd | d] eqn:Ed.
  { exists fd. split; [reflexivity | eapply stoul_fault, Ed]. }
  destruct Hkey as [-> | [-> | ->]]; congruence.
Qed.

Lemma setup_rejects_malformed_scalars_witness :
  exists f,
    WavePlugin_new false sin_at_zero cos_at_zero parse_named sample_device
      (sample_conf "ten seconds" EmptyString) [] = inl f /\
    (f = InvalidArgument \/ f = OutOfRange).
Proof.
  apply (proj1 (setup_rejects_malformed_scalars false sin_at_zero cos_at_zero
                  parse_named sample_device
                  (sample_conf "ten seconds" EmptyString) [])
           "period"%string InvalidArgument).
  - left. reflexivity.
  - reflexivity.
Defined.

(** *** From setup to the frames *)

Lemma override_range current value :
  0 <= current < 2 ^ 32 -> 0 <= override current value < 2 ^ 32.
Proof.
  intros H. unfold override. destruct (0 <? value); [apply u32_range | exact H].
Qed.

Lemma setup_state b fs fc parse manager conf groups s log :
  WavePlugin_new b fs fc parse manager conf groups = inr (s, log) ->
  exists p l d colors table s1,
    stoul (conf_at conf "period") = inr p /\
    generateColorTable colors = inr table /\
    computePhases b fs fc manager
      (mkWavePlugin (getRenderTarget manager)
                    (select_group (conf_at conf "group") groups) [] table
                    0 (override default_period p) (override default_length l)
                    (override default_direction d)) = inr (s1, log) /\
    s = clear_buffer s1.
Proof.
  unfold WavePlugin_new. intros H.
  apply rbind_ok in H as (p & Hp & H). apply rbind_ok in H as (l & Hl & H).
  apply rbind_ok in H as (d & Hd & H). apply rbind_ok in H as (colors & Hc & H).
  apply rbind_ok in H as (table & Ht & H).
  apply rbind_ok in H as ([s1 log1] & Hs1 & H). injection H as <- <-.
  exists p, l, d, colors, table, s1. auto.
Qed.

Lemma render_all_ok deltas :
  forall s,
    tables_built s -> buffer_compatible s ->
    0 <= m_time s < m_period s -> m_period s < 2 ^ 32 ->
    Forall (fun d => 0 <= d <= m_period s) deltas ->
    exists s',
      render_all deltas s = inr s' /\
      tables_built s' /\ buffer_compatible s' /\
      0 <= m_time s' < m_period s' /\ m_period s' = m_period s.
Proof.
  unfold render_all.
  induction deltas as [| d deltas IH]; intros s Hbuilt Hcompat Htime Hp Hds.
  - exists s. simpl. auto.
  - apply Forall_cons in Hds as [Hd Hds].
    pose proof (advance_range _ _ _ Htime Hd Hp) as Hadv.
    destruct (global_phase_range _ _ Hadv) as (t & Hg & Ht & _).
    pose proof (render_ok d s t Hbuilt Hcompat Ht Hg) as Hr.
    simpl. rewrite Hr. simpl.
    set (s1 := frame_of s (advance (m_time s) (m_period s) d) t) in *.
    destruct (IH s1) as (s' & Hs' & Hb' & Hc' & Ht' & Hp').
    + apply frame_of_built, Hbuilt.
    + apply frame_of_compatible, Hcompat.
    + exact Hadv.
    + exact Hp.
    + exact Hds.
    + exists s'. auto.
Qed.

(** X14: In steady state the sampler has no error: on built tables that are
    index-compatible with the element set, with the accumulator below the
    period, every sequence of frames whose deltas are at most one period
    runs to its end, and leaves the plugin in such a state again. *)
Theorem steady_state_has_no_fault s deltas :
  tables_built s -> buffer_compatible s ->
  0 <= m_time s < m_period s -> m_period s < 2 ^ 32 ->
  Forall (fun d => 0 <= d <= m_period s) deltas ->
  exists s',
    render_all deltas s = inr s' /\
    tables_built s' /\ buffer_compatible s' /\
    0 <= m_time s' < m_period s' /\ m_period s' = m_period s.
Proof. intros. apply render_all_ok; assumption. Qed.

Lemma steady_state_has_no_fault_witness :
  exists s',
    render_all [1000; 0; 999; 1; 500] (group_plugin 900) = inr s' /\
    0 <= m_time s' < 1000.
Proof.
  destruct (steady_state_has_no_fault (group_plugin 900) [1000; 0; 999; 1; 500])
    as (s' & Hr & _ & _ & Ht & Hp).
  - split; [repeat constructor; unfold accuracy; lia | reflexivity].
  - split; [reflexivity |].
    repeat constructor; simpl; eauto; unfold key_slot; simpl; lia.
  - simpl. lia.
  - simpl. lia.
  - repeat constructor; simpl; lia.
  - exists s'. split; [exact Hr |]. rewrite Hp in Ht. exact Ht.
Defined.

(** X15: What setup leaves behind is what the sampler needs: the accumulator
    is 0, the buffer is all {0,0,0,0} with the layout of the device's
    render target, the color table has 1024 entries, every phase is in
    [0, 1024), and the phase table has one entry per key of the group
    or, in whole-buffer mode on the device's own render target, one per
    slot of the buffer.  So, when the keys of the group designate slots
    of the buffer and the period was not stored as 0, every sequence of
    frames with deltas of at most one period runs without fault. *)
Theorem setup_establishes_sampler_preconditions
    b fs fc parse manager conf groups s log :
  WavePlugin_new b fs fc parse manager conf groups = inr (s, log) ->
  (keys (m_keys s) = [] -> layout_ok manager (getRenderTarget manager) = true) ->
  m_time s = 0 /\
  m_buffer s
  = mkRenderTarget
      (replicate (length (rt_colors (getRenderTarget manager))) (mkRGBA 0 0 0 0))
      (rt_blocks (getRenderTarget manager)) /\
  m_keys s = select_group (conf_at conf "group") groups /\
  0 <= m_period s < 2 ^ 32 /\
  tables_built s /\
  match keys (m_keys s) with
  | [] => length (rt_colors (m_buffer s)) = length (m_phases s)
  | group => length group = length (m_phases s)
  end /\
  (slots_valid (getRenderTarget manager) (keys (m_keys s)) ->
   m_period s <> 0 ->
   forall deltas,
     Forall (fun d => 0 <= d <= m_period s) deltas ->
     exists s', render_all deltas s = inr s').
Proof.
  intros Hnew Hlayout.
  destruct (setup_state _ _ _ _ _ _ _ _ _ Hnew)
    as (p & l & d & colors & table & s1 & Hp & Htable & Hphases & ->).
  pose proof (stoul_range _ _ Hp) as Hprange.
  pose proof (proj1 (generateColorTable_ranges _ _ Htable)) as Hsize.
  pose proof (computePhases_scalars _ _ _ _ _ _ _ Hphases)
    as (Eper & Elen & Edir & Ekeys & Etime & Ecolors & Ebuf).
  simpl in Eper, Elen, Edir, Ekeys, Etime, Ecolors, Ebuf.
  unfold clear_buffer in *. cbn [m_keys m_time m_period m_buffer m_phases m_colors
                                 rt_colors rt_blocks] in *.
  rewrite Ekeys in Hlayout.
  assert (Hdom : in_domain (m_phases s1) /\
                 match keys (select_group (conf_at conf "group") groups) with
                 | [] => length (rt_colors (getRenderTarget manager))
                         = length (m_phases s1)
                 | group => length group = length (m_phases s1)
                 end).
  { unfold computePhases in Hphases.
    apply rbind_ok in Hphases as (freqX & _ & Hphases).
    apply rbind_ok in Hphases as (freqY & _ & Hphases).
    apply rbind_ok in Hphases as (st & Hst & Hphases).
    injection Hphases as <- _. cbn [m_keys m_buffer set_phases m_phases] in *.
    destruct (keys (select_group (conf_at conf "group") groups))
      as [| key group] eqn:Hkeys.
    - split.
      + apply (all_blocks_in_domain _ _ _ _ _ _ _ _ _ Hst). constructor.
      + specialize (Hlayout eq_refl). unfold layout_ok in Hlayout.
        apply andb_prop in Hlayout as [Hfirst Hlayout].
        apply Nat.eqb_eq in Hfirst.
        destruct (all_blocks_shape _ _ _ _ _ _ _
                    (rt_blocks (getRenderTarget manager)) _ _ Hst)
          as (_ & _ & _ & _ & Hlen & _);
          [reflexivity | reflexivity | exact Hlayout
          | simpl; symmetry; exact Hfirst |].
        symmetry. exact Hlen.
    - split.
      + apply (group_keys_in_domain _ _ _ _ _ _ _ Hst). constructor.
      + apply group_keys_shape in Hst as (_ & vals & Evals & Hall).
        simpl in Evals. rewrite Evals. apply (Forall2_length _ _ _ Hall). }
  destruct Hdom as [Hdom Hlen].
  assert (Hperiod : 0 <= m_period s1 < 2 ^ 32).
  { rewrite Eper. apply override_range. unfold default_period. lia. }
  rewrite Ebuf, Ekeys, Etime, Ecolors. cbn [rt_colors rt_blocks].
  split; [reflexivity |]. split; [reflexivity |]. split; [reflexivity |].
  split; [exact Hperiod |].
  assert (Hbuilt : in_domain (m_phases s1) /\ length table = table_size)
    by (split; assumption).
  split; [exact Hbuilt |].
  assert (Hshape :
            match keys (select_group (conf_at conf "group") groups) with
            | [] => length (replicate (length (rt_colors (getRenderTarget manager)))
                                      (mkRGBA 0 0 0 0)) = length (m_phases s1)
            | _ :: _ => length (keys (select_group (conf_at conf "group") groups))
                        = length (m_phases s1)
            end).
  { destruct (keys (select_group (conf_at conf "group") groups));
      [rewrite length_replicate |]; exact Hlen. }
  split.
  { destruct (keys (select_group (conf_at conf "group") groups)); exact Hshape. }
  intros Hvalid Hnz deltas Hds.
  set (s := mkWavePlugin
              (mkRenderTarget
                 (replicate (length (rt_colors (getRenderTarget manager)))
                            (mkRGBA 0 0 0 0))
                 (rt_blocks (getRenderTarget manager)))
              (select_group (conf_at conf "group") groups) (m_phases s1) table
              0 (m_period s1) (m_length s1) (m_direction s1)).
  destruct (render_all_ok deltas s) as (s' & Hs' & _).
  - exact Hbuilt.
  - unfold buffer_compatible, s. cbn [m_keys m_buffer m_phases rt_colors rt_blocks].
    destruct (keys (select_group (conf_at conf "group") groups)) as [| key group];
      [exact Hshape |].
    split; [exact Hshape |].
    unfold slots_valid in *. cbn [rt_colors rt_blocks].
    rewrite length_replicate. exact Hvalid.
  - unfold s. cbn [m_time m_period]. lia.
  - unfold s. cbn [m_period]. lia.
  - exact Hds.
  - exists s'. exact Hs'.
Qed.

Lemma load_colors_spec_witness :
  load_colors parse_named (sample_conf "0" EmptyString) = inr [gray 0; gray 255].
Proof.
  apply (proj1 (load_colors_spec parse_named (sample_conf "0" EmptyString))).
  reflexivity.
Defined.

Lemma setup_establishes_sampler_preconditions_witness :
  exists s log,
    WavePlugin_new false sin_at_zero cos_at_zero parse_named sample_device
      (sample_conf "2500" EmptyString) sample_groups = inr (s, log) /\
    m_time s = 0 /\ tables_built s /\
    exists s', render_all [16; 2500; 0; 17] s = inr s'.
Proof.
  assert (Hrun : exists r,
             WavePlugin_new false sin_at_zero cos_at_zero parse_named
               sample_device (sample_conf "2500" EmptyString) sample_groups = inr r)
    by (eexists; vm_compute; reflexivity).
  destruct Hrun as ([s log] & E).
  exists s, log. split; [exact E |].
  destruct (setup_establishes_sampler_preconditions _ _ _ _ _ _ _ _ _ E)
    as (Htime & _ & Hkeys & _ & Hbuilt & _ & Hframes); [reflexivity |].
  split; [exact Htime |]. split; [exact Hbuilt |].
  destruct (stoul_period_of_setup _ _ _ _ _ _ _ _ _ E) as (p & Hp & Eper & _).
  vm_compute in Hp. injection Hp as <-.
  apply Hframes.
  - rewrite Hkeys. constructor.
  - rewrite Eper. vm_compute. discriminate.
  - rewrite Eper. repeat constructor; vm_compute; discriminate.
Defined.

(** * Rebuilding the phase table *)

(** X16: [computePhases] starts from an empty table whatever [m_phases]
    holds (line 122): the table it builds does not depend on the old
    one, and running it again on its own result rebuilds the same table
    instead of growing it. *)
Theorem computePhases_rebuild b fs fc manager s s' log :
  computePhases b fs fc manager s = inr (s', log) ->
  computePhases b fs fc manager s' = inr (s', log) /\
  forall phases,
    computePhases b fs fc manager (set_phases s phases) = inr (s', log).
Proof.
  intros H.
  assert (Hany : forall phases,
             computePhases b fs fc manager (set_phases s phases)
             = computePhases b fs fc manager s) by reflexivity.
  split; [| intros phases; rewrite Hany; exact H].
  pose proof H as H'. unfold computePhases in H'.
  bind_inv H'. bind_inv H'. bind_inv H'. injection H' as <- _.
  rewrite Hany. exact H.
Qed.

Lemma computePhases_rebuild_witness :
  exists s' log,
    computePhases false sin_at_zero cos_at_zero sample_device
      (sample_plugin no_group) = inr (s', log) /\
    computePhases false sin_at_zero cos_at_zero sample_device s' = inr (s', log).
Proof.
  assert (Hrun : exists r,
             computePhases false sin_at_zero cos_at_zero sample_device
               (sample_plugin no_group) = inr r)
    by (eexists; vm_compute; reflexivity).
  destruct Hrun as ([s' log] & E).
  exists s', log. split; [exact E |].
  apply (computePhases_rebuild _ _ _ _ _ _ _ E).
Defined.
